(** * wsrpc client: connectivity state machine and call multiplexer

    A shallow embedding of [client.go]: the per-address connection
    ([addrConn]) with its retry loop, and the user-facing handle
    ([ClientConn]) with its pending-call table, read-dispatch loop and
    [Invoke].

    Goroutines are modelled as program counters over a shared state; a
    step of a goroutine is one stretch of code between two blocking
    operations.  Critical sections of [ac.mu] contain no operation that can
    block on another holder of [ac.mu], so each is one step; the send on
    [stateCh] inside them is received by [listenForRead], which blocks on
    nothing else, and the channel is modelled by the values sent and the
    number of them received.  Critical sections of [cc.mu] contain a send
    on an unbuffered channel whose receiver may want [cc.mu], so [cc.mu]
    is modelled with an explicit holder and that send as a rendezvous.
    The backoff strategy is one package-level object: the options and the
    connections hold a reference to it, and its state is passed through
    the steps of the connections that share it. *)

From Stdlib Require Import ZArith Lia.
From stdpp Require Import base option list gmap strings.

(** ** connectivity.State *)

Module connectivity.

Inductive State := Idle | Connecting | Ready | TransientFailure | Shutdown.

#[export] Instance State_eq_dec : EqDecision State.
Proof. solve_decision. Defined.

End connectivity.
Export connectivity.

(** ** Errors: [errors.New] values, identified by their message *)

Definition error := string.

Definition errConnClosing : error := "grpc: the connection is closing"%string.
Definition errNotReady : error := "connection is not ready"%string.
Definition errCallTimeout : error := "call timeout"%string.
Definition errCouldNotEstablish : error := "Could not establish a connection"%string.

(** ** backoff.Strategy *)

(** Modelled from the spec: the [backoff.Strategy] interface of package
    [internal/backoff], whose code is missing.  A strategy is a stateful
    generator of retry delays: [NextBackOff] yields the next delay and
    advances the state, [Reset] puts the strategy back into its initial
    state.  Durations are nanoseconds. *)
Class Strategy (B : Type) := {
  NextBackOff : B -> Z * B;
  Reset : B -> B;
  initial : B;
  Reset_initial : forall s, Reset s = initial;
}.

(** The delay a fresh strategy yields first. *)
Definition initial_delay `{Strategy B} : Z := fst (NextBackOff initial).

(** A doubling strategy, used to run the model on concrete inputs: the
    state is the number of delays drawn since the last reset. *)
Definition exp_next (n : nat) : Z * nat := ((100 * 2 ^ Z.of_nat n)%Z, S n).

#[export] Instance exponential : Strategy nat := {|
  NextBackOff := exp_next;
  Reset := fun _ => 0;
  initial := 0;
  Reset_initial := fun _ => eq_refl;
|}.

(** Modelled from the spec: the package-level variable
    [backoff.DefaultExponential], whose declaration is missing.  It is the
    one strategy object [client.go] uses: [Dial] stores it in the options
    of every handle (line 63), [newAddrConn] copies the options into the
    connection (line 84), and [resetTransport] calls the object's methods
    through that field (lines 308 and 352).  A value of the interface type
    [backoff.Strategy] is nil or refers to this object; the object's state
    is one for the whole process, shared by all handles and connections. *)
Inductive strategy_object := DefaultExponential.

(** ** addrConn *)

Section AddrConn.
Context {B : Type} `{!Strategy B}.

(** The fields of the [addrConn] struct.  [bs] is [dopts.bs]: [None] for a
    nil strategy, else a reference to the strategy object, whose state is
    not part of the connection; [dopts.copts] only
    reaches [NewWebsocketClient], whose outcome is an input of the model.
    [transport] is [None] for a nil [ClientTransport]; a transport is named
    by the number of the [createTransport] call that made it.  [stateCh]
    lists the values sent on the channel so far, oldest first.  [cancelled]
    tells whether [ac.cancel] has run, that is whether [ac.ctx.Done()] is
    closed. *)
Record addrConn := AddrConn {
  addr : string;
  bs : option strategy_object;
  transport : option nat;
  state : State;
  stateCh : list State;
  cancelled : bool;
}.

Definition set_transport (t : option nat) (a : addrConn) : addrConn :=
  AddrConn (addr a) (bs a) t (state a) (stateCh a) (cancelled a).
Definition set_state (s : State) (a : addrConn) : addrConn :=
  AddrConn (addr a) (bs a) (transport a) s (stateCh a) (cancelled a).
Definition send_stateCh (s : State) (a : addrConn) : addrConn :=
  AddrConn (addr a) (bs a) (transport a) (state a) (stateCh a ++ [s]) (cancelled a).
Definition cancel (a : addrConn) : addrConn :=
  AddrConn (addr a) (bs a) (transport a) (state a) (stateCh a) true.

(** [updateConnectivityState]: nothing when the state is already [s],
    else store [s] and send it on [stateCh]. *)
Definition updateConnectivityState (s : State) (a : addrConn) : addrConn :=
  if decide (state a = s) then a
  else send_stateCh s (set_state s a).

(** Where a [resetTransport] goroutine stands. *)
Inductive pc :=
| Top                          (* line 302: head of the [for] *)
| Dialing (backoffFor : Z)     (* line 317: inside [createTransport] *)
| DialErr (backoffFor : Z)     (* line 322: [err != nil], before the lock *)
| Waiting (backoffFor : Z)     (* line 333: select on timer and [ctx.Done] *)
| DialOk (newTr : nat)         (* line 345: dial succeeded, before the lock *)
| Blocked (reconnect : nat)    (* line 360: [<-reconnect.Done()] *)
| Returned
| Panicked.                    (* a method was called on the nil strategy *)

(** An [addrConn] object together with what lives around it: the closures
    of its [createTransport] calls (call [k] owns a [sync.Once] and a
    [reconnect] event), the [Close] calls made on transports, and its
    [resetTransport] goroutines. *)
Record Conn := mkConn {
  ac : addrConn;
  dials : nat;
  once : list nat;
  fired : list nat;
  closed : list nat;
  loops : list pc;
}.

Definition with_ac (f : addrConn -> addrConn) (c : Conn) : Conn :=
  mkConn (f (ac c)) (dials c) (once c) (fired c) (closed c) (loops c).
Definition with_loops (f : list pc -> list pc) (c : Conn) : Conn :=
  mkConn (ac c) (dials c) (once c) (fired c) (closed c) (f (loops c)).
Definition go_resetTransport (c : Conn) : Conn :=
  with_loops (fun l => l ++ [Top]) c.
Definition transport_Close (t : nat) (c : Conn) : Conn :=
  mkConn (ac c) (dials c) (once c) (fired c) (closed c ++ [t]) (loops c).
Definition once_Do (k : nat) (f : Conn -> Conn) (c : Conn) : Conn :=
  if decide (k ∈ once c) then c
  else let c' := f c in
       mkConn (ac c') (dials c') (once c' ++ [k]) (fired c') (closed c') (loops c').
Definition reconnect_Fire (k : nat) (c : Conn) : Conn :=
  mkConn (ac c) (dials c) (once c) (fired c ++ [k]) (closed c) (loops c).
Definition next_dial (c : Conn) : Conn :=
  mkConn (ac c) (S (dials c)) (once c) (fired c) (closed c) (loops c).

(** [connect]: the error returned and the new state. *)
Definition connect (c : Conn) : Conn * option error :=
  if decide (state (ac c) = Shutdown) then (c, Some errConnClosing)
  else if decide (state (ac c) <> Idle) then (c, None)
  else (go_resetTransport (with_ac (updateConnectivityState Connecting) c), None).

(** [teardown]. *)
Definition teardown (c : Conn) : Conn :=
  if decide (state (ac c) = Shutdown) then c
  else
    let c1 := with_ac (updateConnectivityState Shutdown) c in
    let curTr := transport (ac c1) in
    let c2 := with_ac (set_transport None) c1 in
    let c3 := with_ac cancel c2 in
    match curTr with
    | Some t => transport_Close t c3
    | None => c3
    end.

(** The [onClose] closure of the [k]-th [createTransport] call. *)
Definition onClose (k : nat) (c : Conn) : Conn :=
  reconnect_Fire k
    (once_Do k
       (fun c => if decide (state (ac c) = Ready)
                 then with_ac (updateConnectivityState Idle) c
                 else c)
       c).

(** What the environment decides at a step of [resetTransport]. *)
Inductive input :=
| Next                       (* nothing: the goroutine just runs on *)
| DialResult (ok : bool)     (* [NewWebsocketClient] returned, with or without error *)
| TimerC                     (* the backoff timer fired *)
| CtxDone.                   (* [ac.ctx.Done()] was chosen by the select *)

(** One step of [resetTransport] from [p]; [None] when the goroutine cannot
    take that step (it is blocked, or has returned).  [b] is the state of
    the strategy object before the step; the step returns its state
    after.  [NextBackOff] and [Reset] act on the object in place. *)
Definition resetTransport_step (i : input) (p : pc) (b : B) (c : Conn)
  : option (pc * B * Conn) :=
  match p, i with
  | Top, Next =>
      if decide (state (ac c) = Shutdown) then Some (Returned, b, c)
      else
        match bs (ac c) with
        | None => Some (Panicked, b, c)
        | Some DefaultExponential =>
            let '(backoffFor, b') := NextBackOff b in
            let c2 := with_ac (set_transport None) c in
            Some (Dialing backoffFor, b', with_ac (updateConnectivityState Connecting) c2)
        end
  | Dialing backoffFor, DialResult ok =>
      let k := dials c in
      Some (if ok then DialOk k else DialErr backoffFor, b, next_dial c)
  | DialErr backoffFor, Next =>
      if decide (state (ac c) = Shutdown) then Some (Returned, b, c)
      else Some (Waiting backoffFor, b, with_ac (updateConnectivityState TransientFailure) c)
  | Waiting _, TimerC => Some (Top, b, c)
  | Waiting _, CtxDone =>
      if cancelled (ac c) then Some (Returned, b, c) else None
  | DialOk newTr, Next =>
      if decide (state (ac c) = Shutdown) then Some (Returned, b, transport_Close newTr c)
      else
        let c1 := with_ac (set_transport (Some newTr)) c in
        match bs (ac c1) with
        | None => Some (Panicked, b, c1)
        | Some DefaultExponential =>
            Some (Blocked newTr, Reset b, with_ac (updateConnectivityState Ready) c1)
        end
  | Blocked k, Next =>
      if decide (k ∈ fired c) then Some (Top, b, c) else None
  | _, _ => None
  end.

(** What can happen to a connection: a call of [connect] or [teardown], a
    transport reporting its closure, a step of a retry goroutine. *)
Inductive event :=
| EvConnect
| EvTeardown
| EvOnClose (k : nat)
| EvLoop (g : nat) (i : input).

(** A step of a connection, on the state of the strategy object and the
    connection. *)
Definition step (e : event) (s : B * Conn) : option (B * Conn) :=
  match e with
  | EvConnect => Some (s.1, fst (connect s.2))
  | EvTeardown => Some (s.1, teardown s.2)
  | EvOnClose k => if decide (k < dials s.2) then Some (s.1, onClose k s.2) else None
  | EvLoop g i =>
      p ← loops s.2 !! g;
      '(p', b', c') ← resetTransport_step i p s.1 s.2;
      Some (b', with_loops (fun l => <[g := p']> l) c')
  end.

Fixpoint run (es : list event) (s : B * Conn) : option (B * Conn) :=
  match es with
  | [] => Some s
  | e :: es => s' ← step e s; run es s'
  end.

(** The connections of a process, one for each handle [Dial] returned,
    with the strategy object they share: a step of connection [a], and a
    run of steps of the connections, each event with the connection it
    happens to. *)
Definition step_at (a : nat) (e : event) (p : B * list Conn) : option (B * list Conn) :=
  c ← p.2 !! a;
  s ← step e (p.1, c);
  Some (s.1, <[a := s.2]> p.2).

Fixpoint run_at (es : list (nat * event)) (p : B * list Conn) : option (B * list Conn) :=
  match es with
  | [] => Some p
  | ae :: es => p' ← step_at ae.1 ae.2 p; run_at es p'
  end.

(** The events [es] happening to connection [a]. *)
Definition at_conn (a : nat) (es : list event) : list (nat * event) :=
  (fun e => (a, e)) <$> es.

(** Schedules of one retry goroutine [g]: an iteration of the loop whose
    dial fails, up to the backoff wait ([failing_dial]) and through it
    ([failed_attempt]); an iteration whose dial succeeds, up to the return
    of [createTransport] ([successful_dial]). *)
Definition failing_dial (g : nat) : list event :=
  [EvLoop g Next; EvLoop g (DialResult false); EvLoop g Next].
Definition failed_attempt (g : nat) : list event :=
  failing_dial g ++ [EvLoop g TimerC].
Definition successful_dial (g : nat) : list event :=
  [EvLoop g Next; EvLoop g (DialResult true)].

(** The state of a strategy after one more delay was drawn. *)
Definition advance (b : B) : B := snd (NextBackOff b).

End AddrConn.


(** ** The message envelope *)

Definition bytes := list Byte.byte.

Record Request := mkRequest {
  Request_CallId : string;
  Request_Method : string;
  Request_Payload : bytes;
}.

Record Response := mkResponse {
  CallId : string;
  Payload : bytes;
}.

Inductive isMessage_Exchange :=
| Message_Request (r : Request)
| Message_Response (r : Response).

(** [Exchange] is [None] when the oneof is not set. *)
Record Message := mkMessage { Exchange : option isMessage_Exchange }.

(** The codec functions the client calls: [MarshalProtoMessage] and
    [UnmarshalProtoMessage] of this package, whose code is missing, and
    [proto.Marshal] of the protobuf library.  They are parameters.
    [UnmarshalProtoMessage] is called at two types: on an inbound frame,
    into a [Message] ([UnmarshalMessage]), and on a response payload, into
    the caller's [reply] ([UnmarshalReply], which tells only whether
    decoding failed). *)
Class Codec (Args : Type) := {
  MarshalProtoMessage : Args -> bytes + error;
  proto_Marshal : Message -> bytes + error;
  UnmarshalMessage : bytes -> Message + error;
  UnmarshalReply : bytes -> option error;
}.

(** ** ClientConn *)

Section ClientConn.
Context {B : Type} `{!Strategy B}.
Context {Args : Type} `{!Codec Args}.
(** The type [ConnectOptions], whose declaration is missing, is a
    parameter; [copts0] is its zero value. *)
Context {ConnectOptions : Type} (copts0 : ConnectOptions).

(** [dopts_bs] is the field [bs] of [dialOptions]: nil, or a reference to
    the strategy object. *)
Record dialOptions := mkDialOptions {
  copts : ConnectOptions;
  dopts_bs : option strategy_object;
}.

(** A [DialOption] is a [funcDialOption]: [apply] runs the wrapped function
    on the options. *)
Definition DialOption := dialOptions -> dialOptions.

Definition defaultDialOptions : dialOptions := mkDialOptions copts0 None.

(** Where an [Invoke] goroutine stands.  [callID] in [I170] is the value
    [uuid.NewString] is going to return to this call. *)
Inductive ipc :=
| I170 (method : string) (args : Args) (callID : string)
                                              (* line 170: entry *)
| I198 (callID : string) (msgB : bytes)       (* line 198: [cc.mu.Lock()] *)
| I199 (callID : string) (msgB : bytes)       (* line 199: holding [cc.mu] *)
| I202 (callID : string) (msgB : bytes) (wait : nat)
                                              (* line 202: [Write] *)
| I205 (callID : string) (wait : nat)         (* line 205: select *)
| I208 (b : bytes)                            (* line 208: a payload was received *)
| I214 (callID : string)                      (* line 214: [cc.mu.Lock()] *)
| I215 (callID : string)                      (* line 215: holding [cc.mu] *)
| IReturned (err : option error)
| IPanicked.                                  (* nil pointer dereference *)

(** Where a [handleRead] goroutine stands. *)
Inductive hpc :=
| H121                                        (* line 121: entering the select *)
| H122 (tr : nat)                             (* line 122: select on [tr.Read()] and [done] *)
| H147 (r : Response)                         (* line 147: [cc.mu.Lock()] *)
| H151 (r : Response)                         (* line 151: holding [cc.mu] *)
| H152 (call : nat) (r : Response)            (* line 152: [call <- r.GetPayload()] *)
| H154 (r : Response)                         (* line 154: holding [cc.mu] *)
| HReturned
| HFatal                                      (* [log.Fatalln]: the process exits *)
| HPanicked.                                  (* nil pointer dereference *)

(** Where a [Close] call stands; [conn] is its local variable. *)
Inductive cpc :=
| C160                                        (* line 160: entry *)
| C162 (conn : option nat)                    (* line 162: [cc.mu.Lock()] *)
| C163 (conn : option nat)                    (* line 163: holding [cc.mu] *)
| C166 (conn : option nat)                    (* line 166: [conn.teardown()] *)
| CReturned
| CPanicked.                                  (* nil pointer dereference *)

Inductive goroutine :=
| GInvoke (p : ipc)
| GHandleRead (done : nat) (p : hpc)
| GListenForRead
| GClose (p : cpc).

(** The handle and everything reachable from it.  The first six fields are
    those of the [ClientConn] struct: a pointer to an [addrConn] is its
    index in [heap] ([None] for nil), [csCh] names the [addrConn] whose
    [stateCh] it is, and [mu] is [None] when [cc.mu] is free and else names
    the goroutine holding it.  [strategy] is the state of the package-level
    strategy object, to which the [bs] fields of the options and of every
    connection in [heap] refer.  A channel made by [make] is named by a
    number; [chans] counts the channels made so far and [closedCh] lists
    those that were closed.  [csRecv] counts the values [listenForRead] has
    received from [csCh], and [written] lists the frames passed to [Write],
    each with its transport. *)
Record World := mkWorld {
  target : string;
  dopts : dialOptions;
  csCh : option nat;
  conn : option nat;
  methodCalls : gmap string nat;
  mu : option nat;
  strategy : B;
  heap : list Conn;
  chans : nat;
  closedCh : list nat;
  csRecv : nat;
  written : list (nat * bytes);
  threads : list goroutine;
}.

Definition set_dopts (d : dialOptions) (w : World) : World :=
  mkWorld (target w) d (csCh w) (conn w) (methodCalls w) (mu w) (strategy w) (heap w)
    (chans w) (closedCh w) (csRecv w) (written w) (threads w).
Definition set_csCh (c : option nat) (w : World) : World :=
  mkWorld (target w) (dopts w) c (conn w) (methodCalls w) (mu w) (strategy w) (heap w)
    (chans w) (closedCh w) (csRecv w) (written w) (threads w).
Definition set_conn (c : option nat) (w : World) : World :=
  mkWorld (target w) (dopts w) (csCh w) c (methodCalls w) (mu w) (strategy w) (heap w)
    (chans w) (closedCh w) (csRecv w) (written w) (threads w).
Definition set_methodCalls (m : gmap string nat) (w : World) : World :=
  mkWorld (target w) (dopts w) (csCh w) (conn w) m (mu w) (strategy w) (heap w)
    (chans w) (closedCh w) (csRecv w) (written w) (threads w).
Definition set_mu (m : option nat) (w : World) : World :=
  mkWorld (target w) (dopts w) (csCh w) (conn w) (methodCalls w) m (strategy w) (heap w)
    (chans w) (closedCh w) (csRecv w) (written w) (threads w).
Definition set_strategy (b : B) (w : World) : World :=
  mkWorld (target w) (dopts w) (csCh w) (conn w) (methodCalls w) (mu w) b (heap w)
    (chans w) (closedCh w) (csRecv w) (written w) (threads w).
Definition set_heap (h : list Conn) (w : World) : World :=
  mkWorld (target w) (dopts w) (csCh w) (conn w) (methodCalls w) (mu w) (strategy w) h
    (chans w) (closedCh w) (csRecv w) (written w) (threads w).
Definition make_chan (w : World) : World :=
  mkWorld (target w) (dopts w) (csCh w) (conn w) (methodCalls w) (mu w) (strategy w) (heap w)
    (S (chans w)) (closedCh w) (csRecv w) (written w) (threads w).
Definition close_chan (d : nat) (w : World) : World :=
  mkWorld (target w) (dopts w) (csCh w) (conn w) (methodCalls w) (mu w) (strategy w) (heap w)
    (chans w) (closedCh w ++ [d]) (csRecv w) (written w) (threads w).
Definition recv_csCh (w : World) : World :=
  mkWorld (target w) (dopts w) (csCh w) (conn w) (methodCalls w) (mu w) (strategy w) (heap w)
    (chans w) (closedCh w) (S (csRecv w)) (written w) (threads w).
Definition transport_Write (t : nat) (b : bytes) (w : World) : World :=
  mkWorld (target w) (dopts w) (csCh w) (conn w) (methodCalls w) (mu w) (strategy w) (heap w)
    (chans w) (closedCh w) (csRecv w) (written w ++ [(t, b)]) (threads w).
Definition set_threads (l : list goroutine) (w : World) : World :=
  mkWorld (target w) (dopts w) (csCh w) (conn w) (methodCalls w) (mu w) (strategy w) (heap w)
    (chans w) (closedCh w) (csRecv w) (written w) l.

Definition spawn (g : goroutine) (w : World) : World :=
  set_threads (threads w ++ [g]) w.

(** [registerMethodCall] and [removeMethodCall]; both are called with
    [cc.mu] held. *)
Definition registerMethodCall (id : string) (w : World) : nat * World :=
  let wait := chans w in
  let w1 := make_chan w in
  (wait, set_methodCalls (<[id := wait]> (methodCalls w1)) w1).

Definition removeMethodCall (id : string) (w : World) : World :=
  set_methodCalls (delete id (methodCalls w)) w.

(** [cc.mu.Lock()] by goroutine [g]: possible only when the mutex is free. *)
Definition mu_Lock (g : nat) (w : World) : option World :=
  match mu w with
  | None => Some (set_mu (Some g) w)
  | Some _ => None
  end.

(** The transport [cc.conn.transport] evaluates to: [None] stands for the
    panic on a nil [cc.conn] or a nil transport. *)
Definition conn_transport (w : World) : option nat :=
  a ← conn w; c ← heap w !! a; transport (ac c).

(** What the environment decides at a step of a goroutine. *)
Inductive signal :=
| Go                   (* nothing: the goroutine just runs on *)
| Frame (b : bytes)    (* the transport's read channel yields [b] *)
| Timer                (* [time.After] fired and the select took it *)
| DoneClosed.          (* the select took the closed [done] channel *)

(** One step of [Invoke] run by goroutine [g]. *)
Definition Invoke_step (g : nat) (i : signal) (p : ipc) (w : World) : option (ipc * World) :=
  match p, i with
  | I170 method args callID, Go =>
      match conn w with
      | None => Some (IPanicked, w)
      | Some a =>
          c ← heap w !! a;
          if decide (state (ac c) <> Ready) then Some (IReturned (Some errNotReady), w)
          else
            match MarshalProtoMessage args with
            | inr err => Some (IReturned (Some err), w)
            | inl payload =>
                let msg := mkMessage (Some (Message_Request (mkRequest callID method payload))) in
                match proto_Marshal msg with
                | inr err => Some (IReturned (Some err), w)
                | inl msgB => Some (I198 callID msgB, w)
                end
            end
      end
  | I198 callID msgB, Go =>
      w' ← mu_Lock g w; Some (I199 callID msgB, w')
  | I199 callID msgB, Go =>
      if decide (mu w = Some g) then
        let '(wait, w1) := registerMethodCall callID w in
        Some (I202 callID msgB wait, set_mu None w1)
      else None
  | I202 callID msgB wait, Go =>
      match conn_transport w with
      | None => Some (IPanicked, w)
      | Some t => Some (I205 callID wait, transport_Write t msgB w)
      end
  | I205 callID wait, Timer => Some (I214 callID, w)
  | I208 b, Go => Some (IReturned (UnmarshalReply b), w)
  | I214 callID, Go =>
      w' ← mu_Lock g w; Some (I215 callID, w')
  | I215 callID, Go =>
      if decide (mu w = Some g) then
        Some (IReturned (Some errCallTimeout), set_mu None (removeMethodCall callID w))
      else None
  | _, _ => None
  end.

(** One step of [handleRead done], with [handleMessageResponse] inlined,
    run by goroutine [g]. *)
Definition handleRead_step (g : nat) (done : nat) (i : signal) (p : hpc) (w : World)
  : option (hpc * World) :=
  match p, i with
  | H121, Go =>
      match conn_transport w with
      | None => Some (HPanicked, w)
      | Some t => Some (H122 t, w)
      end
  | H122 t, Frame b =>
      match UnmarshalMessage b with
      | inr _ => Some (HFatal, w)
      | inl msg =>
          match Exchange msg with
          | Some (Message_Request _) => Some (H121, w)
          | Some (Message_Response r) => Some (H147 r, w)
          | None => Some (H121, w)
          end
      end
  | H122 t, DoneClosed =>
      if decide (done ∈ closedCh w) then Some (HReturned, w) else None
  | H147 r, Go =>
      w' ← mu_Lock g w; Some (H151 r, w')
  | H151 r, Go =>
      if decide (mu w = Some g) then
        match methodCalls w !! CallId r with
        | Some call => Some (H152 call r, w)
        | None => Some (H121, set_mu None w)
        end
      else None
  | H154 r, Go =>
      if decide (mu w = Some g) then
        Some (H121, set_mu None (removeMethodCall (CallId r) w))
      else None
  | _, _ => None
  end.

(** One turn of the loop of [listenForRead]: receive a state from [csCh],
    then the body.  [done] is declared inside the loop, so it is nil in
    every turn; the [done] of the [Ready] branch is another variable. *)
Definition listenForRead_step (w : World) : option World :=
  ch ← csCh w;
  c ← heap w !! ch;
  s ← stateCh (ac c) !! csRecv w;
  let w := recv_csCh w in
  let done : option nat := None in
  if decide (s = Ready) then
    let done := chans w in
    Some (spawn (GHandleRead done H121) (make_chan w))
  else
    match done with
    | Some d => Some (close_chan d w)
    | None => Some w
    end.

(** One step of [Close] run by goroutine [g]. *)
Definition Close_step (g : nat) (p : cpc) (w : World) : option (cpc * World) :=
  match p with
  | C160 => Some (C162 (conn w), w)
  | C162 conn => w' ← mu_Lock g w; Some (C163 conn, w')
  | C163 conn =>
      if decide (mu w = Some g) then Some (C166 conn, set_mu None (set_conn None w))
      else None
  | C166 conn =>
      match conn with
      | None => Some (CPanicked, w)
      | Some a =>
          c ← heap w !! a;
          Some (CReturned, set_heap (<[a := teardown c]> (heap w)) w)
      end
  | CReturned | CPanicked => None
  end.

(** The send [call <- payload] of goroutine [h] meeting the receive
    [<-wait] of the select of goroutine [g]: the channel is unbuffered, so
    both move together. *)
Definition rendezvous (h g : nat) (w : World) : option World :=
  th ← threads w !! h;
  tg ← threads w !! g;
  match th, tg with
  | GHandleRead done (H152 call r), GInvoke (I205 callID wait) =>
      if decide (call = wait) then
        Some (set_threads
                (<[g := GInvoke (I208 (Payload r))]>
                   (<[h := GHandleRead done (H154 r)]> (threads w))) w)
      else None
  | _, _ => None
  end.

(** What the application can call on the handle. *)
Inductive call :=
| CallInvoke (method : string) (args : Args) (callID : string)
| CallClose.

Definition entry (k : call) : goroutine :=
  match k with
  | CallInvoke method args callID => GInvoke (I170 method args callID)
  | CallClose => GClose C160
  end.

Inductive Event :=
| EvCall (k : call)                (* the application makes a call, in a goroutine of its own *)
| EvGo (g : nat) (i : signal)      (* goroutine [g] takes a step *)
| EvSend (h g : nat)               (* [h] sends to [g] on an unbuffered channel *)
| EvConn (a : nat) (e : event).    (* something happens to the [addrConn] at [a] *)

Definition goroutine_step (g : nat) (i : signal) (t : goroutine) (w : World)
  : option (goroutine * World) :=
  match t with
  | GInvoke p => '(p', w') ← Invoke_step g i p w; Some (GInvoke p', w')
  | GHandleRead done p =>
      '(p', w') ← handleRead_step g done i p w; Some (GHandleRead done p', w')
  | GListenForRead =>
      match i with
      | Go => w' ← listenForRead_step w; Some (GListenForRead, w')
      | _ => None
      end
  | GClose p =>
      match i with
      | Go => '(p', w') ← Close_step g p w; Some (GClose p', w')
      | _ => None
      end
  end.

Definition Step (e : Event) (w : World) : option World :=
  match e with
  | EvCall k => Some (spawn (entry k) w)
  | EvGo g i =>
      t ← threads w !! g;
      '(t', w') ← goroutine_step g i t w;
      Some (set_threads (<[g := t']> (threads w')) w')
  | EvSend h g => rendezvous h g w
  | EvConn a e =>
      c ← heap w !! a;
      s ← step e (strategy w, c);
      Some (set_strategy s.1 (set_heap (<[a := s.2]> (heap w)) w))
  end.

Fixpoint Exec (es : list Event) (w : World) : option World :=
  match es with
  | [] => Some w
  | e :: es => w' ← Step e w; Exec es w'
  end.

(** [newAddrConn]: the new object is zero but for the fields of the
    literal; [cc] is fresh when [Dial] calls this, so [cc.mu] is free. *)
Definition newAddrConn (addr : string) (w : World) : World * nat * option error :=
  let a := AddrConn addr (dopts_bs (dopts w)) None Idle [] false in
  let p := length (heap w) in
  let w1 := set_heap (heap w ++ [mkConn a 0 [] [] [] []]) w in
  let w2 := set_csCh (Some p) (set_conn (Some p) w1) in
  (spawn GListenForRead w2, p, None).

(** [Dial].  [b] is the state in which the call finds the strategy
    object; [Dial] stores a reference to the object in the options and
    leaves its state alone. *)
Definition Dial (b : B) (target : string) (opts : list DialOption)
  : option World * option error :=
  let cc := mkWorld target defaultDialOptions None None ∅ None b [] 0 [] 0 [] [] in
  let cc := foldl (fun cc opt => set_dopts (opt (dopts cc)) cc) cc opts in
  let cc := set_dopts (mkDialOptions (copts (dopts cc)) (Some DefaultExponential)) cc in
  let '(cc, addrConn, err) := newAddrConn target cc in
  match err with
  | Some _ => (None, Some errCouldNotEstablish)
  | None =>
      let cc := set_heap (alter (fun c => fst (connect c)) addrConn (heap cc)) cc in
      (Some (set_conn (Some addrConn) cc), None)
  end.

(** Goroutine [t] is going to receive, or is receiving, on channel [wait]. *)
Definition receives_on (wait : nat) (t : goroutine) : Prop :=
  match t with
  | GInvoke (I202 _ _ ch) | GInvoke (I205 _ ch) => ch = wait
  | _ => False
  end.

(** The state in which the dispatch goroutine [h] holds [cc.mu] and is
    sending on [wait], the channel of call [id], while [Invoke] goroutine
    [g], which made the call, has taken the timeout and is waiting for
    [cc.mu]; nobody receives on [wait]. *)
Definition deadlocked (g h : nat) (id : string) (wait done : nat) (r : Response)
    (w : World) : Prop :=
  mu w = Some h /\
  threads w !! h = Some (GHandleRead done (H152 wait r)) /\
  threads w !! g = Some (GInvoke (I214 id)) /\
  methodCalls w !! id = Some wait /\
  forall g' t, threads w !! g' = Some t -> ~ receives_on wait t.

End ClientConn.

(** ** A concrete handle

    A codec, a dialed handle and a few schedules, to run the model on. *)

Definition byte_of_id (s : string) : Byte.byte :=
  match s with
  | String a _ => Ascii.byte_of_ascii a
  | EmptyString => Byte.x00
  end.

(** A frame is a tag byte ([00] request, [01] response), one byte of call
    identifier, and the payload. *)
Definition demo_encode (m : Message) : bytes + error :=
  match Exchange m with
  | Some (Message_Request r) =>
      inl (Byte.x00 :: byte_of_id (Request_CallId r) :: Request_Payload r)
  | Some (Message_Response r) =>
      inl (Byte.x01 :: byte_of_id (CallId r) :: Payload r)
  | None => inl []
  end.

Definition demo_decode (b : bytes) : Message + error :=
  match b with
  | tag :: id :: payload =>
      let callID := String (Ascii.ascii_of_byte id) EmptyString in
      if Byte.eqb tag Byte.x00
      then inl (mkMessage (Some (Message_Request (mkRequest callID EmptyString payload))))
      else if Byte.eqb tag Byte.x01
      then inl (mkMessage (Some (Message_Response (mkResponse callID payload))))
      else inl (mkMessage None)
  | _ => inr "short frame"%string
  end.

#[export] Instance demo_codec : Codec bytes := {|
  MarshalProtoMessage := inl;
  proto_Marshal := demo_encode;
  UnmarshalMessage := demo_decode;
  UnmarshalReply := fun _ => None;
|}.

Definition demo_World := @World nat bytes unit.

(** The connection as [Dial] leaves it, and once its first dial succeeded. *)
Definition fresh_conn : Conn :=
  mkConn (AddrConn "ws://peer"%string (Some DefaultExponential) None Connecting
            [Connecting] false)
    0 [] [] [] [Top].

Definition ready_conn : Conn :=
  mkConn (AddrConn "ws://peer"%string (Some DefaultExponential) (Some 0) Ready
            [Connecting; Ready] false)
    1 [] [] [] [Blocked 0].

(** A connection whose retry goroutine drew the delay 100 and is dialing;
    a connection that lost its first transport, failed to dial again and
    waits the delay 200. *)
Definition drawing_conn : Conn :=
  mkConn (AddrConn "ws://peer"%string (Some DefaultExponential) None Connecting
            [Connecting] false)
    0 [] [] [] [Dialing 100].

Definition waiting_conn : Conn :=
  mkConn (AddrConn "ws://peer"%string (Some DefaultExponential) None TransientFailure
            [Connecting; Ready; Idle; Connecting; TransientFailure] false)
    2 [0] [0] [] [Waiting 200].

(** The first dial succeeds, [connect] is called once more, the transport
    is lost and the next dial fails. *)
Definition loss_and_failure : list event :=
  successful_dial 0 ++ EvLoop 0 Next :: EvConnect :: EvOnClose 0 :: EvLoop 0 Next
    :: failing_dial 0.

Definition failed_again_conn : Conn :=
  mkConn (AddrConn "ws://peer"%string (Some DefaultExponential) None TransientFailure
            [Connecting; Ready; Idle; Connecting; TransientFailure] false)
    2 [0] [0] [] [Waiting 100].

Definition dialed_world : demo_World :=
  mkWorld "ws://peer"%string (mkDialOptions tt (Some DefaultExponential))
    (Some 0) (Some 0) ∅ None 0
    [fresh_conn] 0 [] 0 [] [GListenForRead].

Definition hi : bytes := [Byte.x68; Byte.x69].
Definition echo_request : bytes := Byte.x00 :: Byte.x61 :: hi.
Definition echo_response : bytes := Byte.x01 :: Byte.x61 :: hi.
Definition stray_response : bytes := Byte.x01 :: Byte.x7a :: hi.
Definition echo_reply : Response := mkResponse "a"%string hi.
Definition stray_reply : Response := mkResponse "z"%string hi.

Definition dial_succeeds : list (@Event bytes) :=
  [EvConn 0 (EvLoop 0 Next); EvConn 0 (EvLoop 0 (DialResult true)); EvConn 0 (EvLoop 0 Next)].

Definition transport_lost (k : nat) : list (@Event bytes) :=
  [EvConn 0 (EvOnClose k); EvConn 0 (EvLoop 0 Next)].

Definition invoke_until_select : list (@Event bytes) :=
  [EvCall (CallInvoke "Echo"%string hi "a"%string);
   EvGo 2 Go; EvGo 2 Go; EvGo 2 Go; EvGo 2 Go].

(** The dial succeeds, [listenForRead] starts the dispatch loop, and a call
    [a] gets as far as its select. *)
Definition pending_schedule : list (@Event bytes) :=
  dial_succeeds ++ [EvGo 0 Go; EvGo 0 Go; EvGo 1 Go] ++ invoke_until_select.

Definition pending_world : demo_World :=
  mkWorld "ws://peer"%string (mkDialOptions tt (Some DefaultExponential))
    (Some 0) (Some 0)
    {["a"%string := 1]} None 0
    [ready_conn] 2 [] 2 [(0, echo_request)]
    [GListenForRead; GHandleRead 0 (H122 0); GInvoke (I205 "a"%string 1)].

(** The dial succeeds, the transport is lost, the next dial succeeds;
    [listenForRead] has received the first state only. *)
Definition reconnect_schedule : list (@Event bytes) :=
  dial_succeeds ++ [EvGo 0 Go] ++ transport_lost 0 ++ dial_succeeds.

Definition reconnected_world : demo_World :=
  mkWorld "ws://peer"%string (mkDialOptions tt (Some DefaultExponential))
    (Some 0) (Some 0) ∅ None 0
    [mkConn (AddrConn "ws://peer"%string (Some DefaultExponential) (Some 1) Ready
               [Connecting; Ready; Idle; Connecting; Ready] false)
       2 [0] [0] [] [Blocked 1]]
    0 [] 1 [] [GListenForRead].

(** ** Invariants of the connection

    Properties of a connection that the operations are shown to keep. *)

Section AddrConnInvariants.
Context {B : Type} `{!Strategy B}.

(** The transport reference agrees with the state: set while [Ready],
    nil once [Shutdown]. *)
Definition transport_agrees (c : Conn) : Prop :=
  (state (ac c) = Ready -> is_Some (transport (ac c))) /\
  (state (ac c) = Shutdown -> transport (ac c) = None).

(** The states a subscriber of [stateCh] has been sent, after the [Idle]
    the connection starts in. *)
Definition published (c : Conn) : list State := Idle :: stateCh (ac c).

(** No value of [l] is followed by an equal one. *)
Definition no_repeat (l : list State) : Prop :=
  forall i x y, l !! i = Some x -> l !! (S i) = Some y -> x <> y.

Definition publishes_changes (c : Conn) : Prop :=
  last (published c) = Some (state (ac c)) /\ no_repeat (published c).

(** The state the connection is in after each event of the run [es] from
    [s], as far as the run goes. *)
Fixpoint states_along (es : list event) (s : B * Conn) : list State :=
  match es with
  | [] => []
  | e :: es =>
      match step e s with
      | Some s' => state (ac s'.2) :: states_along es s'
      | None => []
      end
  end.

(** The changes in a sequence [l] of states that follows the state [s0]:
    the states of [l] that differ from the state before them. *)
Fixpoint changes (s0 : State) (l : list State) : list State :=
  match l with
  | [] => []
  | s :: l => if decide (s = s0) then changes s0 l else s :: changes s l
  end.

(** No goroutine of the connection stands between a successful dial and
    its adoption. *)
Definition no_dial_adopted (c : Conn) : Prop :=
  forall g k, loops c !! g <> Some (DialOk k).

(** The connection is alive: not shut down, its context not cancelled,
    none of its retry goroutines has returned. *)
Definition alive (c : Conn) : Prop :=
  state (ac c) <> Shutdown /\ cancelled (ac c) = false /\ Returned ∉ loops c.

(** Every operation changes the [addrConn] by [updateConnectivityState]
    or leaves its state alone. *)
Inductive ac_change (a : addrConn) : addrConn -> Prop :=
| ac_update s (a1 : addrConn) :
    state a1 = state a -> stateCh a1 = stateCh a ->
    ac_change a (updateConnectivityState s a1)
| ac_keep (a1 : addrConn) :
    state a1 = state a -> stateCh a1 = stateCh a -> ac_change a a1.

(** Event [e] makes connection [c] draw a delay from the strategy: a
    retry goroutine at the head of its loop goes on, the connection not
    being shut down and its strategy not nil. *)
Definition draws (e : event) (c : Conn) : bool :=
  match e with
  | EvLoop g Next =>
      match loops c !! g, bs (ac c) with
      | Some Top, Some DefaultExponential => bool_decide (state (ac c) <> Shutdown)
      | _, _ => false
      end
  | _ => false
  end.

(** No event of the run [es] from [p] draws a delay. *)
Fixpoint draws_nothing (es : list (nat * event)) (p : B * list Conn) : Prop :=
  match es with
  | [] => True
  | ae :: es =>
      (forall c, p.2 !! ae.1 = Some c -> draws ae.2 c = false) /\
      (forall p', step_at ae.1 ae.2 p = Some p' -> draws_nothing es p')
  end.

End AddrConnInvariants.

(** ** Schedules and invariants of the handle *)

Section ClientConnDefs.
Context {B : Type} `{!Strategy B}.
Context {Args : Type} `{!Codec Args}.
Context {ConnectOptions : Type}.

(** The request frame [Invoke] builds for a call. *)
Definition request_of (callID method : string) (payload : bytes) : Message :=
  mkMessage (Some (Message_Request (mkRequest callID method payload))).

(** An [Invoke] from its entry to its select, in goroutine [g]; a [Close]
    from its entry to its end, in goroutine [g]. *)
Definition Invoke_to_select (g : nat) : list (@Event Args) :=
  replicate 4 (EvGo g Go).
Definition Close_to_end (g : nat) : list (@Event Args) :=
  replicate 4 (EvGo g Go).

(** The dispatch loop [h] handling one frame that carries a response with
    an entry, up to its send. *)
Definition dispatch_to_send (h : nat) (b : bytes) : list (@Event Args) :=
  [EvGo h (Frame b); EvGo h Go; EvGo h Go].

(** The dispatch loops [listenForRead] starts on receiving the states
    [ss], the first [done] channel being [ch]. *)
Fixpoint started (ch : nat) (ss : list State) : list (@goroutine Args) :=
  match ss with
  | [] => []
  | s :: ss =>
      if decide (s = Ready) then GHandleRead ch H121 :: started (S ch) ss
      else started ch ss
  end.

Definition count_Ready (ss : list State) : nat :=
  length (filter (fun s => s = Ready) ss).

(** Goroutine [t] stands between a [cc.mu.Lock()] and the [Unlock] that
    follows it. *)
Definition in_critical_section (t : @goroutine Args) : Prop :=
  match t with
  | GInvoke (I199 _ _) | GInvoke (I215 _) => True
  | GHandleRead _ (H151 _) | GHandleRead _ (H152 _ _) | GHandleRead _ (H154 _) => True
  | GClose (C163 _) => True
  | _ => False
  end.

(** [cc.mu] is held exactly by the goroutine that stands in a critical
    section. *)
Definition mu_held_by_section (w : @World B Args ConnectOptions) : Prop :=
  (forall g t, threads w !! g = Some t -> in_critical_section t -> mu w = Some g) /\
  (forall g, mu w = Some g ->
     exists t, threads w !! g = Some t /\ in_critical_section t).

(** The call a goroutine uses channel [ch] for: an [Invoke] that waits or
    is about to wait on [ch] for call [id], a dispatch loop about to send
    on [ch] the response to call [id]. *)
Definition uses_for (t : @goroutine Args) (ch : nat) (id : string) : Prop :=
  match t with
  | GInvoke (I202 id' _ ch') | GInvoke (I205 id' ch') => ch' = ch /\ id' = id
  | GHandleRead _ (H152 ch' r) => ch' = ch /\ CallId r = id
  | _ => False
  end.

(** Every channel in use, in the call table or by a goroutine, was made
    for one call: [owner] tells which. *)
Definition channels_owned (owner : nat -> option string)
    (w : @World B Args ConnectOptions) : Prop :=
  (forall ch id, owner ch = Some id -> ch < chans w) /\
  (forall id ch, methodCalls w !! id = Some ch -> owner ch = Some id) /\
  (forall g t ch id, threads w !! g = Some t -> uses_for t ch id -> owner ch = Some id).

(** No call is under way. *)
Definition no_call_under_way (w : @World B Args ConnectOptions) : Prop :=
  methodCalls w = ∅ /\
  forall g t ch id, threads w !! g = Some t -> ~ uses_for t ch id.

End ClientConnDefs.

(** ** Server options *)

Section ServerOptions.
(** The key and identity types come from [crypto/ed25519]; what [Creds]
    stores is the result of [NewTransportCredentials] on the result of
    [newServerTLSConfig], both of which are missing, as are the two
    default buffer sizes: all are parameters. *)
Context {PrivateKey Identities TransportCredentials : Type}.
Context (server_credentials : PrivateKey -> Identities -> TransportCredentials).
Context (defaultWriteBufSize defaultReadBufSize : Z).

(** A nil interface, slice or map is [None]. *)
Record serverOptions := mkServerOptions {
  writeBufferSize : Z;
  readBufferSize : Z;
  creds : option TransportCredentials;
  privKey : option PrivateKey;
  clientIdentities : option Identities;
}.

(** A [ServerOption] is a [funcServerOption]: [apply] runs the wrapped
    function on the options. *)
Definition ServerOption := serverOptions -> serverOptions.

Definition Creds (k : PrivateKey) (ids : Identities) : ServerOption :=
  fun o => mkServerOptions (writeBufferSize o) (readBufferSize o)
             (Some (server_credentials k ids)) (privKey o) (clientIdentities o).

Definition WriteBufferSize (s : Z) : ServerOption :=
  fun o => mkServerOptions s (readBufferSize o) (creds o) (privKey o) (clientIdentities o).

Definition ReadBufferSize (s : Z) : ServerOption :=
  fun o => mkServerOptions (writeBufferSize o) s (creds o) (privKey o) (clientIdentities o).

Definition defaultServerOptions : serverOptions :=
  mkServerOptions defaultWriteBufSize defaultReadBufSize None None None.

(** A call of one of the three constructors, and the option it returns. *)
Inductive option_call :=
| CallCreds (k : PrivateKey) (ids : Identities)
| CallWriteBufferSize (s : Z)
| CallReadBufferSize (s : Z).

Definition option_of (call : option_call) : ServerOption :=
  match call with
  | CallCreds k ids => Creds k ids
  | CallWriteBufferSize s => WriteBufferSize s
  | CallReadBufferSize s => ReadBufferSize s
  end.

(** The options applied one after the other. *)
Definition apply_all (calls : list option_call) (o : serverOptions) : serverOptions :=
  foldl (fun o call => option_of call o) o calls.

Definition write_size (call : option_call) : option Z :=
  match call with CallWriteBufferSize s => Some s | _ => None end.
Definition read_size (call : option_call) : option Z :=
  match call with CallReadBufferSize s => Some s | _ => None end.
Definition credentials (call : option_call) : option TransportCredentials :=
  match call with CallCreds k ids => Some (server_credentials k ids) | _ => None end.

End ServerOptions.

(** ** More concrete handles *)

(** A codec that refuses to marshal an empty message. *)
Definition strict_codec : Codec bytes := {|
  MarshalProtoMessage := fun args => match args with
                                     | [] => inr "empty message"%string
                                     | _ => inl args
                                     end;
  proto_Marshal := demo_encode;
  UnmarshalMessage := demo_decode;
  UnmarshalReply := fun _ => None;
|}.

(** The dial succeeds and [listenForRead] starts the dispatch loop, which
    blocks in its read. *)
Definition listening_schedule : list (@Event bytes) :=
  dial_succeeds ++ [EvGo 0 Go; EvGo 0 Go; EvGo 1 Go].

Definition listening_world : demo_World :=
  mkWorld "ws://peer"%string (mkDialOptions tt (Some DefaultExponential))
    (Some 0) (Some 0) ∅ None 0
    [ready_conn] 1 [] 2 [] [GListenForRead; GHandleRead 0 (H122 0)].

(** A call [a] enters [Invoke] on the listening handle. *)
Definition calling_world : demo_World :=
  spawn (GInvoke (I170 "Echo"%string hi "a"%string)) listening_world.

(** Call [a] passes the state check and marshals its request; then the
    transport is lost and the retry loop starts over. *)
Definition lost_schedule : list (@Event bytes) :=
  [EvGo 2 Go] ++ transport_lost 0 ++ [EvConn 0 (EvLoop 0 Next)].

Definition lost_world : demo_World :=
  mkWorld "ws://peer"%string (mkDialOptions tt (Some DefaultExponential))
    (Some 0) (Some 0) ∅ None 1
    [mkConn (AddrConn "ws://peer"%string (Some DefaultExponential) None Connecting
               [Connecting; Ready; Idle; Connecting] false)
       1 [0] [0] [] [Dialing 100]]
    1 [] 2 [] [GListenForRead; GHandleRead 0 (H122 0); GInvoke (I198 "a"%string echo_request)].

(** Call [a] waits in its select and the dispatch loop is about to send
    it the response. *)
Definition sending_world : demo_World :=
  mkWorld "ws://peer"%string (mkDialOptions tt (Some DefaultExponential))
    (Some 0) (Some 0)
    {["a"%string := 1]} (Some 1) 0
    [ready_conn] 2 [] 2 [(0, echo_request)]
    [GListenForRead; GHandleRead 0 (H152 1 echo_reply); GInvoke (I205 "a"%string 1)].

(** * The connectivity state machine *)

Section AddrConnFacts.
Context {B : Type} `{!Strategy B}.
Implicit Types (c : Conn) (a : addrConn) (b : B).

Lemma updateConnectivityState_state s a :
  state (updateConnectivityState s a) = s.
Proof. unfold updateConnectivityState. by case_decide. Qed.

Lemma updateConnectivityState_fields s a :
  addr (updateConnectivityState s a) = addr a /\
  bs (updateConnectivityState s a) = bs a /\
  transport (updateConnectivityState s a) = transport a /\
  cancelled (updateConnectivityState s a) = cancelled a.
Proof. unfold updateConnectivityState. by case_decide. Qed.

(** C4.  [connect] by the state it finds.  In [Shutdown] it returns the
    closing error and changes nothing; in [Connecting], [Ready] and
    [TransientFailure] it returns no error and changes nothing; in [Idle]
    it returns no error, stores and publishes [Connecting], and starts a
    [resetTransport] goroutine, which still stands at the head of its loop
    when [connect] returns: [connect] does not wait for it. *)
Theorem connect_by_state c :
  match state (ac c) with
  | Shutdown => connect c = (c, Some errConnClosing)
  | Idle =>
      connect c =
      (mkConn (AddrConn (addr (ac c)) (bs (ac c)) (transport (ac c)) Connecting
                 (stateCh (ac c) ++ [Connecting]) (cancelled (ac c)))
         (dials c) (once c) (fired c) (closed c) (loops c ++ [Top]),
       None)
  | Connecting | Ready | TransientFailure => connect c = (c, None)
  end.
Proof.
  destruct c as [a d o f cl l]; destruct a as [ad r t s ch cn].
  destruct s; reflexivity.
Qed.

Lemma teardown_shutdown c : state (ac (teardown c)) = Shutdown.
Proof.
  unfold teardown. case_decide as Hs; [done|].
  destruct (transport _); simpl; apply updateConnectivityState_state.
Qed.

Lemma connect_keeps_shutdown c :
  state (ac c) = Shutdown -> fst (connect c) = c.
Proof. intros Hs. unfold connect. by case_decide. Qed.

Lemma onClose_keeps_shutdown k c :
  state (ac c) = Shutdown -> state (ac (onClose k c)) = Shutdown.
Proof.
  intros Hs. unfold onClose, once_Do, reconnect_Fire; simpl.
  case_decide; [done|]. simpl. rewrite decide_False by congruence. done.
Qed.

Lemma resetTransport_step_keeps_shutdown i p b c p' b' c' :
  state (ac c) = Shutdown ->
  resetTransport_step i p b c = Some (p', b', c') ->
  state (ac c') = Shutdown.
Proof.
  intros Hs Hstep. destruct p, i; simpl in Hstep; try done;
    try (rewrite decide_True in Hstep by done); try by simplify_eq.
  - destruct (cancelled (ac c)); by simplify_eq.
  - case_decide; by simplify_eq.
Qed.

(** The cases of a step. *)
Lemma step_cases e b c b' c' :
  step e (b, c) = Some (b', c') ->
  (e = EvConnect /\ b' = b /\ c' = fst (connect c)) \/
  (e = EvTeardown /\ b' = b /\ c' = teardown c) \/
  (exists k, e = EvOnClose k /\ k < dials c /\ b' = b /\ c' = onClose k c) \/
  (exists g i p p' c1, e = EvLoop g i /\ loops c !! g = Some p /\
     resetTransport_step i p b c = Some (p', b', c1) /\
     c' = with_loops (fun l => <[g := p']> l) c1).
Proof.
  intros Hs. destruct e as [| |k|g i]; simpl in Hs.
  - left. by simplify_eq.
  - right; left. by simplify_eq.
  - right; right; left. case_decide; simplify_eq. eauto.
  - right; right; right.
    destruct (loops c !! g) as [p|] eqn:Hp; simpl in Hs; [|done].
    destruct (resetTransport_step i p b c) as [[[p' b1] c1]|] eqn:Hr; simpl in Hs; [|done].
    simplify_eq. eauto 10.
Qed.

Lemma step_keeps_shutdown e b c b' c' :
  state (ac c) = Shutdown -> step e (b, c) = Some (b', c') -> state (ac c') = Shutdown.
Proof.
  intros Hs Hstep. apply step_cases in Hstep
    as [(_ & _ & ->)|[(_ & _ & ->)|[(k & _ & _ & _ & ->)
       |(g & i & p & p' & c1 & _ & _ & Hr & ->)]]].
  - by rewrite connect_keeps_shutdown.
  - apply teardown_shutdown.
  - by apply onClose_keeps_shutdown.
  - simpl. by eapply resetTransport_step_keeps_shutdown.
Qed.

Lemma run_keeps_shutdown es b c b' c' :
  state (ac c) = Shutdown -> run es (b, c) = Some (b', c') -> state (ac c') = Shutdown.
Proof.
  revert b c. induction es as [|e es IH]; intros b c Hs Hrun; simpl in Hrun.
  - by simplify_eq.
  - destruct (step e (b, c)) as [[b1 c1]|] eqn:He; simpl in Hrun; [|done].
    eapply IH; [|done]. by eapply step_keeps_shutdown.
Qed.

(** C5.  The first [teardown] stores and publishes [Shutdown], clears the
    transport reference, cancels the context and calls [Close] on the
    transport it found, if any; a second [teardown] changes nothing; and
    after [teardown] no sequence of [connect] calls, [teardown] calls,
    close notifications of transports and steps of retry goroutines leaves
    the connection in a state other than [Shutdown]. *)
Theorem teardown_idempotent_terminal c es b b' c' :
  (state (ac c) <> Shutdown ->
   teardown c =
   mkConn (AddrConn (addr (ac c)) (bs (ac c)) None Shutdown
             (stateCh (ac c) ++ [Shutdown]) true)
     (dials c) (once c) (fired c)
     (closed c ++ match transport (ac c) with Some t => [t] | None => [] end)
     (loops c)) /\
  teardown (teardown c) = teardown c /\
  (run es (b, teardown c) = Some (b', c') -> state (ac c') = Shutdown).
Proof.
  split; [|split].
  - intros Hs.
    destruct c as [a d o f cl l]; destruct a as [ad r t s ch cn]; simpl in *.
    destruct s; try done; destruct t; cbn; rewrite ?app_nil_r; reflexivity.
  - unfold teardown at 1. by rewrite decide_True by apply teardown_shutdown.
  - apply run_keeps_shutdown, teardown_shutdown.
Qed.

Lemma resetTransport_step_loops i p b c p' b' c' :
  resetTransport_step i p b c = Some (p', b', c') -> loops c' = loops c.
Proof.
  intros Hstep. destruct p, i; simpl in Hstep; try done;
    repeat case_decide; simplify_eq; try done.
  - destruct (bs (ac c)) as [[]|]; [destruct (NextBackOff _)|]; by simplify_eq.
  - destruct (cancelled (ac c)); by simplify_eq.
  - simpl in Hstep. destruct (bs (ac c)) as [[]|]; by simplify_eq.
Qed.

Lemma step_loop g i p b c p' b' c' :
  loops c !! g = Some p ->
  resetTransport_step i p b c = Some (p', b', c') ->
  step (EvLoop g i) (b, c) = Some (b', with_loops (fun l => <[g := p']> l) c') /\
  loops (with_loops (fun l => <[g := p']> l) c') !! g = Some p'.
Proof.
  intros Hg Hstep. split.
  - simpl. rewrite Hg. simpl. by rewrite Hstep.
  - simpl. rewrite (resetTransport_step_loops _ _ _ _ _ _ _ Hstep).
    apply list_lookup_insert_eq. by eapply lookup_lt_Some.
Qed.

(** C2, as amended.  When the transport of a [Ready] connection reports
    its closure, with no [teardown] involved, the state goes from [Ready]
    to [Idle]; the retry goroutine, which was blocked on the transport,
    then starts its next iteration and moves the state from [Idle] to
    [Connecting], clearing the transport reference and drawing a delay.
    The subscriber is sent [Idle], then [Connecting].  Nothing but the
    close notification and the goroutine's own steps is needed. *)
Theorem transport_failure_reconnects c g k b0 :
  state (ac c) = Ready ->
  loops c !! g = Some (Blocked k) ->
  k < dials c ->
  k ∉ once c ->
  bs (ac c) = Some DefaultExponential ->
  exists c1 c2,
    step (EvOnClose k) (b0, c) = Some (b0, c1) /\
    state (ac c1) = Idle /\
    stateCh (ac c1) = stateCh (ac c) ++ [Idle] /\
    run [EvLoop g Next; EvLoop g Next] (b0, c1) = Some (snd (NextBackOff b0), c2) /\
    state (ac c2) = Connecting /\
    transport (ac c2) = None /\
    stateCh (ac c2) = stateCh (ac c) ++ [Idle; Connecting] /\
    loops c2 !! g = Some (Dialing (fst (NextBackOff b0))).
Proof.
  intros Hs Hg Hk Ho Hb.
  destruct c as [a d o f cl l]; destruct a as [ad r t s ch cn]; simpl in *; subst.
  destruct (NextBackOff b0) as [delay b1] eqn:Hn.
  exists (mkConn (AddrConn ad (Some DefaultExponential) t Idle (ch ++ [Idle]) cn)
            d (o ++ [k]) (f ++ [k]) cl l).
  exists (mkConn (AddrConn ad (Some DefaultExponential) None Connecting
                    ((ch ++ [Idle]) ++ [Connecting]) cn)
            d (o ++ [k]) (f ++ [k]) cl (<[g := Dialing delay]> (<[g := Top]> l))).
  assert (g < length l) as Hlen by (by eapply lookup_lt_Some).
  split.
  { rewrite decide_True by done. unfold onClose, once_Do; simpl.
    by rewrite decide_False by done. }
  split; [done|]. split; [done|]. split.
  { simpl. rewrite Hg. simpl. rewrite decide_True by set_solver. simpl.
    rewrite list_lookup_insert_eq by done. simpl. by rewrite Hn. }
  simpl. split; [done|]. split; [done|]. split; [by rewrite <- app_assoc|].
  rewrite list_lookup_insert_eq; [done|]. by rewrite length_insert.
Qed.

Local Arguments updateConnectivityState : simpl never.

Lemma run_app es1 es2 (s : B * Conn) :
  run (es1 ++ es2) s = run es1 s ≫= run es2.
Proof.
  revert s. induction es1 as [|e es1 IH]; intros s; simpl; [done|].
  destruct (step e s); simpl; [apply IH|done].
Qed.

Lemma run_step e es (s s1 : B * Conn) :
  step e s = Some s1 -> run (e :: es) s = run es s1.
Proof. intros E. simpl. by rewrite E. Qed.

(** The head of the loop: unless the connection is shut down, one delay is
    drawn, whatever the dial is going to give. *)
Lemma top_step c b :
  state (ac c) <> Shutdown -> bs (ac c) = Some DefaultExponential ->
  exists c',
    resetTransport_step Next Top b c
      = Some (Dialing (fst (NextBackOff b)), advance b, c') /\
    state (ac c') = Connecting /\ transport (ac c') = None /\
    bs (ac c') = Some DefaultExponential /\ dials c' = dials c.
Proof.
  intros Hs Hb. simpl. rewrite decide_False by done. rewrite Hb.
  unfold advance. destruct (NextBackOff b) as [d b']. eexists. split; [done|].
  simpl. rewrite updateConnectivityState_state.
  destruct (updateConnectivityState_fields Connecting
              (set_transport None (ac c))) as (_ & -> & -> & _).
  by rewrite <- Hb.
Qed.

Lemma failing_dial_run c g b :
  loops c !! g = Some Top -> state (ac c) <> Shutdown ->
  bs (ac c) = Some DefaultExponential ->
  exists c',
    run (failing_dial g) (b, c) = Some (advance b, c') /\
    loops c' !! g = Some (Waiting (fst (NextBackOff b))) /\
    state (ac c') = TransientFailure /\
    bs (ac c') = Some DefaultExponential /\ dials c' = S (dials c).
Proof.
  intros Hg Hs Hb.
  destruct (top_step c b Hs Hb) as (c1 & H1 & Hs1 & _ & Hb1 & Hd1).
  destruct (step_loop g _ _ _ _ _ _ _ Hg H1) as [E1 G1].
  set (c1' := with_loops _ c1) in *.
  assert (resetTransport_step (DialResult false) (Dialing (fst (NextBackOff b)))
            (advance b) c1'
          = Some (DialErr (fst (NextBackOff b)), advance b, next_dial c1')) as H2 by done.
  destruct (step_loop g _ _ _ _ _ _ _ G1 H2) as [E2 G2].
  set (c2' := with_loops _ (next_dial c1')) in *.
  assert (resetTransport_step Next (DialErr (fst (NextBackOff b))) (advance b) c2'
          = Some (Waiting (fst (NextBackOff b)), advance b,
                  with_ac (updateConnectivityState TransientFailure) c2')) as H3.
  { simpl. rewrite decide_False; [done|]. rewrite Hs1. done. }
  destruct (step_loop g _ _ _ _ _ _ _ G2 H3) as [E3 G3].
  eexists. split.
  { unfold failing_dial.
    by rewrite (run_step _ _ _ _ E1), (run_step _ _ _ _ E2), (run_step _ _ _ _ E3). }
  split; [exact G3|]. simpl. rewrite updateConnectivityState_state.
  split; [done|].
  destruct (updateConnectivityState_fields TransientFailure (ac c1)) as (_ & -> & _).
  by rewrite Hb1, Hd1.
Qed.

Lemma failed_attempt_run c g b :
  loops c !! g = Some Top -> state (ac c) <> Shutdown ->
  bs (ac c) = Some DefaultExponential ->
  exists c',
    run (failed_attempt g) (b, c) = Some (advance b, c') /\
    loops c' !! g = Some Top /\
    state (ac c') = TransientFailure /\
    bs (ac c') = Some DefaultExponential /\ dials c' = S (dials c).
Proof.
  intros Hg Hs Hb.
  destruct (failing_dial_run c g b Hg Hs Hb) as (c1 & E1 & G1 & Hs1 & Hb1 & Hd1).
  assert (resetTransport_step TimerC (Waiting (fst (NextBackOff b))) (advance b) c1
          = Some (Top, advance b, c1)) as H2 by done.
  destruct (step_loop g _ _ _ _ _ _ _ G1 H2) as [E2 G2].
  eexists. split.
  { unfold failed_attempt. rewrite run_app, E1.
    exact (run_step _ [] _ _ E2). }
  by split.
Qed.

(** Any number of failed attempts in a row: the state never becomes
    [Ready] nor [Shutdown], and each attempt draws one delay. *)
Lemma failed_attempts_run n c g b :
  loops c !! g = Some Top -> state (ac c) <> Shutdown ->
  bs (ac c) = Some DefaultExponential ->
  exists c',
    run (mjoin (replicate n (failed_attempt g))) (b, c)
      = Some (Nat.iter n advance b, c') /\
    loops c' !! g = Some Top /\
    state (ac c') <> Shutdown /\
    bs (ac c') = Some DefaultExponential /\ dials c' = n + dials c /\
    state (ac c') = (if n is 0 then state (ac c) else TransientFailure).
Proof.
  revert c b. induction n as [|n IH]; intros c b Hg Hs Hb.
  - exists c. by split.
  - destruct (failed_attempt_run c g b Hg Hs Hb) as (c1 & E1 & G1 & Hs1 & Hb1 & Hd1).
    destruct (IH c1 (advance b)) as (c2 & E2 & G2 & Hs2 & Hb2 & Hd2 & Hs2');
      [done|by rewrite Hs1|done|].
    exists c2. split.
    { change (mjoin (replicate (S n) (failed_attempt g)))
        with (failed_attempt g ++ mjoin (replicate n (failed_attempt g))).
      rewrite run_app, E1. simpl. rewrite E2. do 2 f_equal.
      clear. induction n; [done|]. simpl. by rewrite IHn. }
    split; [done|]. split; [done|]. split; [done|].
    split; [lia|]. rewrite Hs2'. by destruct n.
Qed.

Lemma onClose_facts k c :
  loops (onClose k c) = loops c /\
  dials (onClose k c) = dials c /\
  bs (ac (onClose k c)) = bs (ac c) /\
  k ∈ fired (onClose k c) /\
  (state (ac c) <> Shutdown -> state (ac (onClose k c)) <> Shutdown).
Proof.
  unfold onClose, once_Do, reconnect_Fire; simpl.
  destruct (decide (k ∈ once c)); simpl.
  { repeat split; try done. set_solver. }
  destruct (decide (state (ac c) = Ready)); simpl.
  - destruct (updateConnectivityState_fields Idle (ac c)) as (_ & -> & _).
    rewrite updateConnectivityState_state. repeat split; try done. set_solver.
  - repeat split; try done. set_solver.
Qed.

(** A successful iteration from the head of the loop: one delay is drawn
    before the dial returns, and adopting the transport resets the
    strategy. *)
Lemma successful_attempt_run c g b :
  loops c !! g = Some Top -> state (ac c) <> Shutdown ->
  bs (ac c) = Some DefaultExponential ->
  exists c2 c3,
    run (successful_dial g) (b, c) = Some (advance b, c2) /\
    loops c2 !! g = Some (DialOk (dials c)) /\
    run [EvLoop g Next] (advance b, c2) = Some (initial, c3) /\
    loops c3 !! g = Some (Blocked (dials c)) /\
    state (ac c3) = Ready /\
    transport (ac c3) = Some (dials c) /\
    bs (ac c3) = Some DefaultExponential /\
    dials c3 = S (dials c).
Proof.
  intros Hg Hs Hb.
  destruct (top_step c b Hs Hb) as (t1 & T1 & Hst1 & _ & Hbt1 & Hdt1).
  destruct (step_loop g _ _ _ _ _ _ _ Hg T1) as [E2 G2].
  set (c1' := with_loops _ t1) in *.
  assert (resetTransport_step (DialResult true) (Dialing (fst (NextBackOff b)))
            (advance b) c1'
          = Some (DialOk (dials c1'), advance b, next_dial c1')) as T2 by done.
  destruct (step_loop g _ _ _ _ _ _ _ G2 T2) as [E3 G3].
  set (c2 := with_loops _ (next_dial c1')) in *.
  assert (dials c1' = dials c) as Hk by (simpl; congruence).
  rewrite Hk in *.
  assert (resetTransport_step Next (DialOk (dials c)) (advance b) c2
          = Some (Blocked (dials c), initial,
                  with_ac (updateConnectivityState Ready)
                    (with_ac (set_transport (Some (dials c))) c2))) as T3.
  { simpl. rewrite decide_False by (rewrite Hst1; done).
    rewrite Hbt1. by rewrite Reset_initial. }
  destruct (step_loop g _ _ _ _ _ _ _ G3 T3) as [E4 G4].
  set (c3 := with_loops _ (with_ac _ _)) in *.
  exists c2, c3. split.
  { unfold successful_dial.
    by rewrite (run_step _ _ _ _ E2), (run_step _ _ _ _ E3). }
  split; [done|]. split; [exact (run_step _ [] _ _ E4)|]. split; [done|].
  split; [simpl; apply updateConnectivityState_state|].
  simpl. destruct (updateConnectivityState_fields Ready
      (set_transport (Some (dials c)) (ac t1))) as (_ & -> & -> & _).
  simpl. rewrite Hbt1, Hdt1. done.
Qed.

(** The transport [k] of a [Ready] connection is lost and the next dial
    fails: the goroutine waits the delay the strategy yields in the
    state it is in by then. *)
Lemma failure_after_loss_run c g k b :
  loops c !! g = Some (Blocked k) -> state (ac c) = Ready -> k < dials c ->
  bs (ac c) = Some DefaultExponential ->
  exists c',
    run (EvOnClose k :: EvLoop g Next :: failing_dial g) (b, c) = Some (advance b, c') /\
    loops c' !! g = Some (Waiting (fst (NextBackOff b))) /\
    state (ac c') = TransientFailure.
Proof.
  intros Hg Hs Hk Hb.
  assert (step (EvOnClose k) (b, c) = Some (b, onClose k c)) as E5.
  { simpl. by rewrite decide_True. }
  destruct (onClose_facts k c) as (Hl5 & _ & Hb5 & Hf5 & Hs5).
  set (c5 := onClose _ c) in *.
  assert (resetTransport_step Next (Blocked k) b c5 = Some (Top, b, c5)) as T6.
  { simpl. by rewrite decide_True. }
  assert (loops c5 !! g = Some (Blocked k)) as G5 by (by rewrite Hl5).
  destruct (step_loop g _ _ _ _ _ _ _ G5 T6) as [E6 G6].
  set (c6 := with_loops _ c5) in *.
  destruct (failing_dial_run c6 g b G6) as (c7 & E7 & G7 & Hs7 & _).
  { change (state (ac c5) <> Shutdown). apply Hs5. by rewrite Hs. }
  { change (bs (ac c5) = Some DefaultExponential). by rewrite Hb5. }
  exists c7. split; [|done].
  by rewrite (run_step _ _ _ _ E5), (run_step _ _ _ _ E6).
Qed.

(** ** Connections that share the strategy *)

Lemma run_at_app es1 es2 (p : B * list Conn) :
  run_at (es1 ++ es2) p = run_at es1 p ≫= run_at es2.
Proof.
  revert p. induction es1 as [|e es1 IH]; intros p; simpl; [done|].
  destruct (step_at e.1 e.2 p); simpl; [apply IH|done].
Qed.

(** A run of one connection is a run of the process. *)
Lemma run_at_conn (a : nat) es b (cs : list Conn) c b' c' :
  cs !! a = Some c ->
  run es (b, c) = Some (b', c') ->
  run_at (at_conn a es) (b, cs) = Some (b', <[a := c']> cs).
Proof.
  revert b cs c. induction es as [|e es IH]; intros b cs c Ha Hrun; simpl in Hrun.
  - simplify_eq. simpl. by rewrite list_insert_id.
  - destruct (step e (b, c)) as [[b1 c1]|] eqn:He; simpl in Hrun; [|done].
    assert (a < length cs) as Hlen by (by eapply lookup_lt_Some).
    simpl. unfold step_at. simpl. rewrite Ha. simpl. rewrite He. simpl.
    rewrite (IH b1 (<[a := c1]> cs) c1); [|by apply list_lookup_insert_eq|done].
    by rewrite list_insert_insert_eq.
Qed.

(** Events of other connections leave connection [a] alone. *)
Lemma run_at_others (a : nat) es (p p' : B * list Conn) :
  Forall (fun ae => ae.1 <> a) es ->
  run_at es p = Some p' -> p'.2 !! a = p.2 !! a.
Proof.
  revert p. induction es as [|[i e] es IH]; intros p Hes Hrun; simpl in Hrun.
  - by simplify_eq.
  - apply Forall_cons in Hes as [Hi Hes]. simpl in Hi.
    destruct (step_at i e p) as [p1|] eqn:He; simpl in Hrun; [|done].
    rewrite (IH p1 Hes Hrun). unfold step_at in He.
    destruct (p.2 !! i) as [c|]; simpl in He; [|done].
    destruct (step e (p.1, c)) as [s|]; simpl in He; [|done].
    simplify_eq. simpl. by rewrite list_lookup_insert_ne.
Qed.

(** What a step does to the strategy: it draws a delay, or resets the
    strategy, or leaves it alone. *)
Lemma step_strategy e b c b' c' :
  step e (b, c) = Some (b', c') ->
  (draws e c = true /\ b' = advance b) \/
  (draws e c = false /\ (b' = b \/ b' = initial)).
Proof.
  intros Hs. apply step_cases in Hs
    as [(-> & -> & _)|[(-> & -> & _)|[(k & -> & _ & -> & _)
       |(g & i & p & p' & c1 & -> & Hp & Hr & _)]]]; try (right; by eauto).
  unfold draws. destruct p, i; simpl in Hr; try done; simpl; rewrite ?Hp.
  - case_decide as Hsh.
    + right. split; [|simplify_eq; by left].
      destruct (bs (ac c)) as [[]|]; [|done].
      by rewrite bool_decide_eq_false_2 by (by intros ?).
    + destruct (bs (ac c)) as [[]|]; simplify_eq; [|right; by eauto].
      unfold advance. destruct (NextBackOff b). simplify_eq.
      left. by rewrite bool_decide_eq_true_2.
  - right. split; [done|]. simplify_eq. by left.
  - right. split; [done|]. case_decide; simplify_eq; by left.
  - right. split; [done|]. simplify_eq. by left.
  - right. split; [done|]. destruct (cancelled (ac c)); simplify_eq. by left.
  - right. split; [done|]. case_decide; simplify_eq; [by left|].
    simpl in Hr. destruct (bs (ac c)) as [[]|]; simplify_eq; [|by left].
    right. apply Reset_initial.
  - right. split; [done|]. case_decide; simplify_eq. by left.
Qed.

(** While nothing is drawn, a strategy in its initial state stays
    there. *)
Lemma draws_nothing_initial es (p p' : B * list Conn) :
  draws_nothing es p -> run_at es p = Some p' -> p.1 = initial -> p'.1 = initial.
Proof.
  revert p. induction es as [|[i e] es IH]; intros p Hq Hrun Hp; simpl in *.
  - by simplify_eq.
  - destruct Hq as [Hd Hq].
    destruct (step_at i e p) as [p1|] eqn:He; simpl in Hrun; [|done].
    apply (IH p1); [by apply Hq|done|].
    unfold step_at in He.
    destruct (p.2 !! i) as [c|] eqn:Hc; simpl in He; [|done].
    destruct (step e (p.1, c)) as [[b1 c1]|] eqn:Hs; simpl in He; [|done].
    simplify_eq. simpl.
    destruct (step_strategy _ _ _ _ _ Hs) as [[Hdr _]|[_ [->| ->]]]; [|done..].
    by rewrite (Hd c eq_refl) in Hdr.
Qed.

(** C7, as amended.  The connections of a process share the strategy.  A
    retry goroutine of connection [a] at the head of its loop, the
    connection not shut down.  After [n] iterations whose dial failed,
    [n] delays have been drawn from the strategy.  The next iteration
    draws one more before its dial returns, although that dial succeeds;
    the success branch then resets the strategy to its initial state.
    Whatever then happens to the other connections, when the transport is
    lost and the next dial fails, the goroutine waits the delay the
    strategy yields in the state they left it in; if none of them drew a
    delay in between, that is the strategy's initial delay, whatever [n]
    was. *)
Theorem backoff_drawn_every_iteration_reset_on_success (cs : list Conn) (a : nat) c g n b :
  cs !! a = Some c ->
  loops c !! g = Some Top ->
  state (ac c) <> Shutdown ->
  bs (ac c) = Some DefaultExponential ->
  exists c1 c2 c3,
    run_at (at_conn a (mjoin (replicate n (failed_attempt g)))) (b, cs)
      = Some (Nat.iter n advance b, <[a := c1]> cs) /\
    run_at (at_conn a (successful_dial g)) (Nat.iter n advance b, <[a := c1]> cs)
      = Some (advance (Nat.iter n advance b), <[a := c2]> cs) /\
    loops c2 !! g = Some (DialOk (n + dials c)) /\
    run_at (at_conn a [EvLoop g Next]) (advance (Nat.iter n advance b), <[a := c2]> cs)
      = Some (initial, <[a := c3]> cs) /\
    loops c3 !! g = Some (Blocked (n + dials c)) /\
    state (ac c3) = Ready /\
    transport (ac c3) = Some (n + dials c) /\
    forall others b4 cs4,
      Forall (fun ae => ae.1 <> a) others ->
      run_at others (initial, <[a := c3]> cs) = Some (b4, cs4) ->
      exists c4,
        run_at (at_conn a (EvOnClose (n + dials c) :: EvLoop g Next :: failing_dial g))
          (b4, cs4) = Some (advance b4, <[a := c4]> cs4) /\
        loops c4 !! g = Some (Waiting (fst (NextBackOff b4))) /\
        state (ac c4) = TransientFailure /\
        (draws_nothing others (initial, <[a := c3]> cs) ->
         b4 = initial /\ loops c4 !! g = Some (Waiting initial_delay)).
Proof.
  intros Ha Hg Hs Hb.
  assert (a < length cs) as Hlen by (by eapply lookup_lt_Some).
  destruct (failed_attempts_run n c g b Hg Hs Hb) as (c1 & E1 & G1 & Hs1 & Hb1 & Hd1 & _).
  destruct (successful_attempt_run c1 g (Nat.iter n advance b) G1 Hs1 Hb1)
    as (c2 & c3 & E2 & G2 & E3 & G3 & Hs3 & Ht3 & Hb3 & Hd3).
  rewrite Hd1 in *.
  exists c1, c2, c3.
  split; [by apply (run_at_conn a _ _ _ c)|].
  split.
  { assert (<[a := c1]> cs !! a = Some c1) as L by (by apply list_lookup_insert_eq).
    pose proof (run_at_conn a _ _ _ _ _ _ L E2) as R.
    by rewrite list_insert_insert_eq in R. }
  split; [done|]. split.
  { assert (<[a := c2]> cs !! a = Some c2) as L by (by apply list_lookup_insert_eq).
    pose proof (run_at_conn a _ _ _ _ _ _ L E3) as R.
    by rewrite list_insert_insert_eq in R. }
  split; [done|]. split; [done|]. split; [done|].
  intros others b4 cs4 Ho Hrun.
  pose proof (run_at_others a others _ _ Ho Hrun) as Hc4. simpl in Hc4.
  rewrite list_lookup_insert_eq in Hc4 by done.
  destruct (failure_after_loss_run c3 g (n + dials c) b4 G3 Hs3) as (c4 & E4 & G4 & Hs4);
    [lia|done|].
  exists c4. split; [by apply (run_at_conn a _ _ _ c3)|]. split; [done|]. split; [done|].
  intros Hq.
  pose proof (draws_nothing_initial others _ _ Hq Hrun eq_refl) as Hi. simpl in Hi.
  subst b4. by split.
Qed.

End AddrConnFacts.

(** * The call multiplexer *)

Section ClientConnFacts.
Context {B : Type} `{!Strategy B}.
Context {Args : Type} `{!Codec Args}.
Context {ConnectOptions : Type} (copts0 : ConnectOptions).
Implicit Types (w : @World B Args ConnectOptions).

Ltac crunch :=
  unfold mu_Lock, listenForRead_step, rendezvous, registerMethodCall in *;
  repeat (done || simplify_option_eq || case_match).

Ltac wsimpl :=
  cbv [set_threads set_mu set_methodCalls set_strategy set_heap set_conn set_csCh
       set_dopts make_chan close_chan recv_csCh transport_Write spawn
       removeMethodCall registerMethodCall mu_Lock conn_transport
       target dopts csCh conn methodCalls mu strategy heap chans closedCh csRecv
       written threads]; simpl.

Lemma Step_go g i t w t' w' :
  threads w !! g = Some t ->
  goroutine_step g i t w = Some (t', w') ->
  Step (EvGo g i) w = Some (set_threads (<[g := t']> (threads w')) w').
Proof. intros Hg Hs. simpl. rewrite Hg. simpl. by rewrite Hs. Qed.

Lemma Exec_step e es w w1 :
  Step e w = Some w1 -> Exec (e :: es) w = Exec es w1.
Proof. intros E. simpl. by rewrite E. Qed.

Lemma Exec_app es1 es2 w :
  Exec (es1 ++ es2) w = Exec es1 w ≫= Exec es2.
Proof.
  revert w. induction es1 as [|e es1 IH]; intros w; simpl; [done|].
  destruct (Step e w); simpl; [apply IH|done].
Qed.

(** C8.  An [Invoke] that finds the handle's connection in a state other
    than [Ready] returns the not-ready error in its first step, which
    needs neither [cc.mu] nor any signal; nothing but the goroutine's own
    position changes, so no frame is written and no call is registered. *)
Theorem Invoke_not_ready w g method args callID a c :
  threads w !! g = Some (GInvoke (I170 method args callID)) ->
  conn w = Some a ->
  heap w !! a = Some c ->
  state (ac c) <> Ready ->
  exists w',
    Step (EvGo g Go) w = Some w' /\
    w' = set_threads (<[g := GInvoke (IReturned (Some errNotReady))]> (threads w)) w /\
    threads w' !! g = Some (GInvoke (IReturned (Some errNotReady))) /\
    written w' = written w /\
    methodCalls w' = methodCalls w.
Proof.
  intros Hg Hc Ha Hs. eexists. split.
  - eapply Step_go; [done|]. simpl. rewrite Hc. simpl. rewrite Ha. simpl.
    by rewrite decide_True.
  - split; [done|]. simpl. split; [|done].
    apply list_lookup_insert_eq. by eapply lookup_lt_Some.
Qed.

(** C9.  The dispatch loop waits in its select, [cc.mu] is free, and the
    transport yields a frame that decodes to a [Response] whose call
    identifier has no entry in the call table.  The loop takes the lock,
    finds nothing, releases the lock and is back in its select: the whole
    state is what it was before the frame, and the loop goes on. *)
Theorem unmatched_response_ignored w h done t b r :
  threads w !! h = Some (GHandleRead done (H122 t)) ->
  conn_transport w = Some t ->
  mu w = None ->
  UnmarshalMessage b = inl (mkMessage (Some (Message_Response r))) ->
  methodCalls w !! CallId r = None ->
  Exec [EvGo h (Frame b); EvGo h Go; EvGo h Go; EvGo h Go] w = Some w.
Proof.
  intros Hh Ht Hmu Hb Hr.
  assert (h < length (threads w)) as Hlen by (by eapply lookup_lt_Some).
  destruct w as [tg dop cs cn mc m sb hp ch cl cr wr th]; simpl in *; subst.
  unfold Step, goroutine_step. simpl. rewrite Hh. simpl. rewrite Hb. simpl.
  rewrite list_lookup_insert_eq by done. simpl.
  rewrite list_insert_insert_eq, list_lookup_insert_eq by done. simpl.
  rewrite decide_True by done. rewrite Hr. simpl.
  rewrite list_insert_insert_eq, list_lookup_insert_eq by done. simpl.
  unfold conn_transport in *. simpl in *. rewrite Ht. simpl.
  rewrite list_insert_insert_eq. by rewrite list_insert_id.
Qed.

Lemma Close_runs w a c :
  mu w = None -> conn w = Some a -> heap w !! a = Some c ->
  Exec (EvCall CallClose :: replicate 4 (EvGo (length (threads w)) Go)) w =
  Some (set_threads (threads w ++ [GClose CReturned])
          (set_heap (<[a := teardown c]> (heap w)) (set_conn None w))).
Proof.
  intros Hmu Hc Ha.
  destruct w as [tg dop cs cn mc m sb hp ch cl cr wr th]; simpl in *; subst.
  unfold Step, goroutine_step, spawn. simpl.
  rewrite !list_lookup_middle by done. simpl.
  rewrite insert_app_r_alt, Nat.sub_diag by done. simpl.
  rewrite !list_lookup_middle by done. simpl.
  rewrite insert_app_r_alt, Nat.sub_diag by done. simpl.
  rewrite !list_lookup_middle by done. simpl.
  rewrite decide_True by done. simpl.
  rewrite insert_app_r_alt, Nat.sub_diag by done. simpl.
  rewrite !list_lookup_middle by done. simpl.
  rewrite Ha. simpl.
  rewrite insert_app_r_alt, Nat.sub_diag by done. simpl. done.
Qed.

Lemma Invoke_nil_conn_panics w method args callID :
  conn w = None ->
  Exec [EvCall (CallInvoke method args callID); EvGo (length (threads w)) Go] w =
  Some (set_threads (threads w ++ [GInvoke IPanicked]) w).
Proof.
  intros Hc.
  destruct w as [tg dop cs cn mc m sb hp ch cl cr wr th]; simpl in *; subst.
  unfold Step, goroutine_step, spawn. simpl.
  rewrite !list_lookup_middle by done. simpl.
  by rewrite insert_app_r_alt, Nat.sub_diag by done.
Qed.

(** C3.  What the code does on [Invoke] after [Close]: [Close], run to its
    end on a handle whose [cc.mu] is free, leaves [cc.conn] nil and the
    connection torn down; an [Invoke] made afterwards dereferences the nil
    [cc.conn] in its first step and panics, where the claim has it return
    the closing error. *)
Theorem Invoke_after_Close_panics w a c method args callID :
  mu w = None ->
  conn w = Some a ->
  heap w !! a = Some c ->
  exists w',
    Exec ((EvCall CallClose :: replicate 4 (EvGo (length (threads w)) Go))
          ++ [EvCall (CallInvoke method args callID);
              EvGo (S (length (threads w))) Go]) w = Some w' /\
    conn w' = None /\
    heap w' !! a = Some (teardown c) /\
    threads w' !! (length (threads w)) = Some (GClose CReturned) /\
    threads w' !! (S (length (threads w))) = Some (GInvoke IPanicked).
Proof.
  intros Hmu Hc Ha.
  set (w1 := set_threads (threads w ++ [GClose CReturned])
               (set_heap (<[a := teardown c]> (heap w)) (set_conn None w))).
  assert (length (threads w1) = S (length (threads w))) as Hlen.
  { subst w1. simpl. rewrite length_app. simpl. lia. }
  exists (set_threads (threads w1 ++ [GInvoke IPanicked]) w1). split.
  - rewrite Exec_app, (Close_runs w a c) by done. fold w1. simpl mbind.
    rewrite <- Hlen. by apply Invoke_nil_conn_panics.
  - split; [done|]. split.
    { simpl. apply list_lookup_insert_eq. by eapply lookup_lt_Some. }
    split.
    + unfold w1. simpl. rewrite <- app_assoc. simpl.
      by rewrite list_lookup_middle.
    + rewrite <- Hlen.
      change ((threads w1 ++ [GInvoke IPanicked]) !! length (threads w1)
              = Some (GInvoke IPanicked)).
      by rewrite list_lookup_middle.
Qed.

Lemma Invoke_call_not_ready w method args callID a c :
  conn w = Some a -> heap w !! a = Some c -> state (ac c) <> Ready ->
  Exec [EvCall (CallInvoke method args callID); EvGo (length (threads w)) Go] w =
  Some (set_threads (threads w ++ [GInvoke (IReturned (Some errNotReady))]) w).
Proof.
  intros Hc Ha Hs.
  destruct w as [tg dop cs cn mc m sb hp ch cl cr wr th]; simpl in *; subst.
  unfold Step, goroutine_step, spawn. simpl.
  rewrite !list_lookup_middle by done. simpl. rewrite Ha. simpl.
  rewrite decide_True by done. simpl.
  by rewrite insert_app_r_alt, Nat.sub_diag by done.
Qed.

(** Events of the connection at [a] act on the heap cell [a] alone. *)
Lemma Exec_conn es w a c b' c' :
  heap w !! a = Some c ->
  run es (strategy w, c) = Some (b', c') ->
  Exec (EvConn a <$> es) w =
  Some (set_strategy b' (set_heap (<[a := c']> (heap w)) w)).
Proof.
  revert w c. induction es as [|e es IH]; intros w c Ha Hrun; simpl in Hrun.
  - simplify_eq. simpl. rewrite list_insert_id by done. by destruct w.
  - destruct (step e (strategy w, c)) as [[b1 c1]|] eqn:He; simpl in Hrun; [|done].
    rewrite fmap_cons. erewrite Exec_step; [|simpl; rewrite Ha; simpl; by rewrite He].
    erewrite IH; [|simpl; apply list_lookup_insert_eq; by eapply lookup_lt_Some|done].
    simpl. by rewrite list_insert_insert_eq.
Qed.

Lemma apply_opts_fields (opts : list (@DialOption ConnectOptions)) w :
  exists d, foldl (fun cc opt => set_dopts (opt (dopts cc)) cc) w opts = set_dopts d w.
Proof.
  revert w. induction opts as [|opt opts IH]; intros w; simpl.
  - exists (dopts w). by destruct w.
  - destruct (IH (set_dopts (opt (dopts w)) w)) as [d ->]. by exists d.
Qed.

(** C10.  [newAddrConn] never returns an error, and for every target,
    every list of options and every state of the default strategy, [Dial]
    returns a handle and no error.  The handle's
    connection is [Connecting], with one retry goroutine at the head of
    its loop and [listenForRead] started.  However many dial attempts then
    fail, the state only moves to [TransientFailure], and an [Invoke] made
    in between returns the not-ready error, writes no frame and registers
    no call. *)
Theorem Dial_returns_handle (b : B) (target : string)
    (opts : list (@DialOption ConnectOptions)) :
  (forall addr (w0 : @World B Args ConnectOptions), snd (newAddrConn addr w0) = None) /\
  exists w : @World B Args ConnectOptions,
    Dial copts0 b target opts = (Some w, None) /\
    conn w = Some 0 /\
    heap w = [mkConn (AddrConn target (Some DefaultExponential) None Connecting
                        [Connecting] false) 0 [] [] [] [Top]] /\
    strategy w = b /\
    threads w = [GListenForRead] /\
    methodCalls w = ∅ /\
    mu w = None /\
    forall n method args callID,
    exists w1 c1 w2,
      Exec (EvConn 0 <$> mjoin (replicate n (failed_attempt 0))) w = Some w1 /\
      heap w1 = [c1] /\
      state (ac c1) = (if n is 0 then Connecting else TransientFailure) /\
      Exec [EvCall (CallInvoke method args callID); EvGo 1 Go] w1 = Some w2 /\
      threads w2 !! 1 = Some (GInvoke (IReturned (Some errNotReady))) /\
      written w2 = [] /\
      methodCalls w2 = ∅.
Proof.
  split; [done|]. unfold Dial.
  destruct (apply_opts_fields opts
              (mkWorld target (defaultDialOptions copts0) None None ∅ None b [] 0 [] 0 [] []))
    as [d ->].
  set (c0 := mkConn (AddrConn target (Some DefaultExponential) None Connecting
                       [Connecting] false) 0 [] [] [] [Top]).
  set (w := mkWorld target (mkDialOptions (copts d) (Some DefaultExponential))
              (Some 0) (Some 0) ∅ None b [c0] 0 [] 0 [] [GListenForRead]
            : @World B Args ConnectOptions).
  exists w. split; [reflexivity|].
  do 6 (split; [reflexivity|]).
  intros n method args callID.
  destruct (failed_attempts_run n c0 0 b)
    as (c1 & E1 & _ & _ & _ & _ & Hs1); [done..|].
  pose proof (Exec_conn _ w 0 c0 _ c1 eq_refl E1) as E.
  eexists _, c1, _. split; [exact E|]. split; [reflexivity|]. split; [done|].
  split.
  { refine (Invoke_call_not_ready
              (set_strategy (Nat.iter n advance b) (set_heap (<[0:=c1]> (heap w)) w))
              method args callID 0 c1 _ _ _); [done..|].
    rewrite Hs1. by destruct n. }
  done.
Qed.

(** No step of any goroutine closes a channel. *)
Lemma Step_closedCh e w w' :
  Step e w = Some w' -> closedCh w' = closedCh w.
Proof.
  intros Hs. destruct e as [k|g i|h g|a e]; simpl in Hs.
  - by simplify_eq.
  - destruct (threads w !! g) as [t|]; simpl in Hs; [|done].
    destruct (goroutine_step g i t w) as [[t' w1]|] eqn:Hg; simpl in Hs; [|done].
    simplify_eq. simpl.
    destruct t as [p|dn p| |p]; simpl in Hg.
    + destruct p, i; simpl in Hg; crunch.
    + destruct p, i; simpl in Hg; crunch.
    + destruct i; crunch.
    + destruct i; try done. destruct p; simpl in Hg; crunch.
  - crunch.
  - crunch.
Qed.

Lemma Exec_closedCh es w w' :
  Exec es w = Some w' -> closedCh w' = closedCh w.
Proof.
  revert w. induction es as [|e es IH]; intros w Hx; simpl in Hx; [by simplify_eq|].
  destruct (Step e w) as [w1|] eqn:He; simpl in Hx; [|done].
  rewrite (IH _ Hx). by eapply Step_closedCh.
Qed.

Lemma listen_Ready w l ch c :
  threads w !! l = Some GListenForRead ->
  csCh w = Some ch -> heap w !! ch = Some c ->
  stateCh (ac c) !! csRecv w = Some Ready ->
  Step (EvGo l Go) w =
  Some (set_threads (threads w ++ [GHandleRead (chans w) H121]) (make_chan (recv_csCh w))).
Proof.
  intros Hl Hc Hh Hs. simpl. rewrite Hl. simpl.
  unfold listenForRead_step. rewrite Hc. simpl. rewrite Hh. simpl. rewrite Hs. simpl.
  rewrite list_insert_id; [done|]. by apply lookup_app_l_Some.
Qed.

Lemma listen_other w l ch c s :
  threads w !! l = Some GListenForRead ->
  csCh w = Some ch -> heap w !! ch = Some c ->
  stateCh (ac c) !! csRecv w = Some s -> s <> Ready ->
  Step (EvGo l Go) w = Some (recv_csCh w).
Proof.
  intros Hl Hc Hh Hs Hn. simpl. rewrite Hl. simpl.
  unfold listenForRead_step. rewrite Hc. simpl. rewrite Hh. simpl. rewrite Hs. simpl.
  rewrite decide_False by done. simpl.
  rewrite list_insert_id by done. by destruct w.
Qed.

(** C6.  What the code does when the connection is [Ready], leaves
    [Ready] and is [Ready] again: [listenForRead], receiving [Ready],
    [Idle], [Connecting], [Ready], starts a dispatch loop for each [Ready]
    and closes no [done] channel in between, so two dispatch loops stand
    side by side; and as no step of any goroutine ever closes a channel,
    neither of them can be stopped later, where the claim has the first
    one stopped before the second one starts. *)
Theorem listenForRead_leaves_old_loop_running w l ch c :
  threads w !! l = Some GListenForRead ->
  csCh w = Some ch ->
  heap w !! ch = Some c ->
  drop (csRecv w) (stateCh (ac c)) = [Ready; Idle; Connecting; Ready] ->
  exists w',
    Exec (replicate 4 (EvGo l Go)) w = Some w' /\
    threads w' =
      threads w ++ [GHandleRead (chans w) H121; GHandleRead (S (chans w)) H121] /\
    closedCh w' = closedCh w /\
    forall es w'', Exec es w' = Some w'' -> closedCh w'' = closedCh w.
Proof.
  intros Hl Hc Hh Hd.
  assert (forall i s, [Ready; Idle; Connecting; Ready] !! i = Some s ->
            stateCh (ac c) !! (csRecv w + i) = Some s) as Hs.
  { intros i s Hi. by rewrite <- lookup_drop, Hd. }
  pose proof (Hs 0 _ eq_refl) as H0. rewrite Nat.add_0_r in H0.
  pose proof (Hs 1 _ eq_refl) as H1. rewrite Nat.add_1_r in H1.
  pose proof (Hs 2 _ eq_refl) as H2.
  replace (csRecv w + 2) with (S (S (csRecv w))) in H2 by lia.
  pose proof (Hs 3 _ eq_refl) as H3.
  replace (csRecv w + 3) with (S (S (S (csRecv w)))) in H3 by lia.
  eexists. split; [|split; [|split]].
  - simpl replicate.
    erewrite Exec_step; [|by eapply listen_Ready].
    erewrite Exec_step;
      [|eapply (listen_other _ l ch c Idle); [by apply lookup_app_l_Some|done..]].
    erewrite Exec_step;
      [|eapply (listen_other _ l ch c Connecting); [by apply lookup_app_l_Some|done..]].
    erewrite Exec_step;
      [|eapply (listen_Ready _ l ch c); [by apply lookup_app_l_Some|done..]].
    reflexivity.
  - simpl. by rewrite <- app_assoc.
  - done.
  - intros es w'' Hx. by rewrite (Exec_closedCh _ _ _ Hx).
Qed.

(** The two orders of the race that go well.  The response comes first:
    it is handed to [Invoke], the entry is removed by the dispatch loop,
    [Invoke] returns what decoding gives. *)
Lemma delivery_before_timeout w g h id wait done t b r :
  threads w !! g = Some (GInvoke (I205 id wait)) ->
  threads w !! h = Some (GHandleRead done (H122 t)) ->
  methodCalls w !! id = Some wait ->
  mu w = None ->
  UnmarshalMessage b = inl (mkMessage (Some (Message_Response r))) ->
  CallId r = id ->
  Exec [EvGo h (Frame b); EvGo h Go; EvGo h Go; EvSend h g; EvGo h Go; EvGo g Go] w =
  Some (set_threads
          (<[g := GInvoke (IReturned (UnmarshalReply (Payload r)))]>
             (<[h := GHandleRead done H121]> (threads w)))
          (set_methodCalls (delete id (methodCalls w)) w)).
Proof.
  intros Hg Hh Hm Hmu Hb <-.
  assert (g <> h) as Hgh by (intros ->; congruence).
  assert (h <> g) as Hhg by congruence.
  assert (h < length (threads w)) as Hlh by (by eapply lookup_lt_Some).
  assert (g < length (threads w)) as Hlg by (by eapply lookup_lt_Some).
  destruct w as [tg dop cs cn mc m sb hp ch cl cr wr th]; simpl in *; subst.
  unfold Exec, Step, goroutine_step, rendezvous. wsimpl.
  rewrite Hh. simpl. rewrite Hb. wsimpl.
  rewrite list_lookup_insert_eq by done. wsimpl.
  rewrite list_insert_insert_eq, list_lookup_insert_eq by done. wsimpl.
  rewrite decide_True by done. rewrite Hm. wsimpl.
  rewrite list_insert_insert_eq, list_lookup_insert_eq by done. wsimpl.
  rewrite list_lookup_insert_ne by done. rewrite Hg. wsimpl.
  rewrite decide_True by done. wsimpl.
  rewrite list_insert_insert_eq.
  rewrite list_lookup_insert_ne, list_lookup_insert_eq by done. wsimpl.
  rewrite decide_True by done. wsimpl.
  rewrite (list_insert_insert_ne _ h g) by done.
  rewrite list_insert_insert_eq.
  rewrite list_lookup_insert_eq by (by rewrite length_insert). wsimpl.
  by rewrite list_insert_insert_eq.
Qed.

(** The timeout comes first, and no response is being dispatched: the
    entry is removed by [Invoke], which returns the timeout error. *)
Lemma timeout_before_delivery w g id wait :
  threads w !! g = Some (GInvoke (I205 id wait)) ->
  mu w = None ->
  Exec [EvGo g Timer; EvGo g Go; EvGo g Go] w =
  Some (set_threads (<[g := GInvoke (IReturned (Some errCallTimeout))]> (threads w))
          (set_methodCalls (delete id (methodCalls w)) w)).
Proof.
  intros Hg Hmu.
  assert (g < length (threads w)) as Hlg by (by eapply lookup_lt_Some).
  destruct w as [tg dop cs cn mc m sb hp ch cl cr wr th]; simpl in *; subst.
  unfold Exec, Step, goroutine_step. wsimpl. rewrite Hg. wsimpl.
  rewrite list_lookup_insert_eq by done. wsimpl.
  rewrite list_insert_insert_eq, list_lookup_insert_eq by done. wsimpl.
  rewrite decide_True by done. wsimpl.
  by rewrite list_insert_insert_eq.
Qed.

(** A step of a goroutine that does not hold [cc.mu] leaves the mutex and
    the call table alone, and does not start to receive on [wait]. *)
Lemma goroutine_step_frame g' h i t w t' w1 wait :
  mu w = Some h -> g' <> h ->
  goroutine_step g' i t w = Some (t', w1) ->
  ~ receives_on wait t ->
  mu w1 = Some h /\
  methodCalls w1 = methodCalls w /\
  ~ receives_on wait t' /\
  (threads w1 = threads w \/ exists d, threads w1 = threads w ++ [GHandleRead d H121]).
Proof.
  intros Hmu Hne Hg Hr.
  destruct t as [p|dn p| |p]; simpl in Hg.
  - destruct p, i; simpl in Hg; crunch; simpl in *; eauto 10.
  - destruct p, i; simpl in Hg; crunch; simpl in *; eauto 10.
  - destruct i; crunch; simpl in *; eauto 10.
  - destruct i; try done. destruct p; simpl in Hg; crunch; simpl in *; eauto 10.
Qed.

Lemma deadlocked_Step g h id wait done r e w w' :
  deadlocked g h id wait done r w ->
  Step e w = Some w' ->
  deadlocked g h id wait done r w'.
Proof.
  intros (Hmu & Hh & Hg & Hm & Hrecv) Hs.
  assert (g <> h) as Hgh by (intros ->; congruence).
  destruct e as [k|g' i|h' g'|a e]; simpl in Hs.
  - simplify_eq. repeat split; simpl; try done.
    + by apply lookup_app_l_Some.
    + by apply lookup_app_l_Some.
    + intros g' t Ht. apply lookup_app_Some in Ht as [Ht|[_ Ht]]; [by eapply Hrecv|].
      apply list_lookup_singleton_Some in Ht as [_ <-]. destruct k; simpl; tauto.
  - destruct (threads w !! g') as [t|] eqn:Ht; simpl in Hs; [|done].
    destruct (goroutine_step g' i t w) as [[t' w1]|] eqn:Hst; simpl in Hs; [|done].
    simplify_eq.
    destruct (decide (g' = h)) as [->|Hnh].
    { simplify_eq; destruct i; simpl in Hst; done. }
    destruct (decide (g' = g)) as [->|Hng].
    { simplify_eq; destruct i; simpl in Hst; unfold mu_Lock in Hst;
        rewrite ?Hmu in Hst; done. }
    destruct (goroutine_step_frame _ _ _ _ _ _ _ wait Hmu Hnh Hst)
      as (Hmu1 & Hm1 & Hr1 & Hth); [by eapply Hrecv|].
    assert (forall j x, threads w !! j = Some x -> threads w1 !! j = Some x) as Hup.
    { intros j x Hj. destruct Hth as [->|[d ->]]; [done|by apply lookup_app_l_Some]. }
    repeat split; simpl; try done.
    + rewrite list_lookup_insert_ne by done. by apply Hup.
    + rewrite list_lookup_insert_ne by done. by apply Hup.
    + congruence.
    + intros j x Hj. apply list_lookup_insert_Some in Hj as [(-> & <- & _)|[_ Hj]]; [done|].
      destruct Hth as [Hth|[d Hth]]; rewrite Hth in Hj; [by eapply Hrecv|].
      apply lookup_app_Some in Hj as [Hj|[_ Hj]]; [by eapply Hrecv|].
      apply list_lookup_singleton_Some in Hj as [_ <-]. simpl; tauto.
  - unfold rendezvous in Hs.
    destruct (threads w !! h') as [th|] eqn:Hth; simpl in Hs; [|done].
    destruct (threads w !! g') as [tg|] eqn:Htg; simpl in Hs; [|done].
    destruct th as [|dn [| | | |call r'| | | |]| |]; try done.
    destruct tg as [[| | | |cid wt| | | | |]| | |]; try done.
    case_decide; [|done]. simplify_eq.
    assert (g' <> g) by (intros ->; congruence).
    assert (g' <> h) by (intros ->; congruence).
    assert (h' <> g) by (intros ->; congruence).
    destruct (decide (h' = h)) as [->|].
    { simplify_eq. exfalso. by eapply (Hrecv g' _ Htg). }
    repeat split; simpl; try done.
    + by rewrite !list_lookup_insert_ne by done.
    + by rewrite !list_lookup_insert_ne by done.
    + intros j x Hj.
      apply list_lookup_insert_Some in Hj as [(-> & <- & _)|[_ Hj]]; [simpl; tauto|].
      apply list_lookup_insert_Some in Hj as [(-> & <- & _)|[_ Hj]]; [simpl; tauto|].
      by eapply Hrecv.
  - destruct (heap w !! a) as [c|]; simpl in Hs; [|done].
    destruct (step e (strategy w, c)) as [[b1 c1]|]; simpl in Hs; [|done]. by simplify_eq.
Qed.

Lemma deadlocked_Exec g h id wait done r es w w' :
  deadlocked g h id wait done r w ->
  Exec es w = Some w' ->
  deadlocked g h id wait done r w'.
Proof.
  revert w. induction es as [|e es IH]; intros w Hd Hx; simpl in Hx; [by simplify_eq|].
  destruct (Step e w) as [w1|] eqn:He; simpl in Hx; [|done].
  eapply IH; [|done]. by eapply deadlocked_Step.
Qed.

(** C1.  What the code does when the timeout of a call fires while its
    response is being dispatched.  [Invoke] waits in its select for call
    [id]; the dispatch loop receives the matching response, takes [cc.mu]
    and finds the entry; before it sends, the select of [Invoke] takes the
    timeout.  From then on, whatever any goroutine does and whatever is
    called on the handle, the entry stays in the call table, [cc.mu] stays
    with the dispatch loop, which stays on its send, and [Invoke] stays
    before its lock: the entry is removed by neither side, where the claim
    has it removed exactly once. *)
Theorem timeout_racing_delivery_deadlocks w g h id wait done t b r :
  threads w !! g = Some (GInvoke (I205 id wait)) ->
  threads w !! h = Some (GHandleRead done (H122 t)) ->
  methodCalls w !! id = Some wait ->
  mu w = None ->
  UnmarshalMessage b = inl (mkMessage (Some (Message_Response r))) ->
  CallId r = id ->
  (forall g' t', g' <> g -> threads w !! g' = Some t' -> ~ receives_on wait t') ->
  exists w1,
    Exec [EvGo h (Frame b); EvGo h Go; EvGo h Go; EvGo g Timer] w = Some w1 /\
    forall es w2, Exec es w1 = Some w2 ->
      methodCalls w2 !! id = Some wait /\
      mu w2 = Some h /\
      threads w2 !! g = Some (GInvoke (I214 id)) /\
      threads w2 !! h = Some (GHandleRead done (H152 wait r)).
Proof.
  intros Hg Hh Hm Hmu Hb <- Hrecv.
  assert (g <> h) as Hgh by (intros ->; congruence).
  assert (h < length (threads w)) as Hlh by (by eapply lookup_lt_Some).
  assert (g < length (threads w)) as Hlg by (by eapply lookup_lt_Some).
  set (w1 := set_threads (<[g := GInvoke (I214 (CallId r))]>
                            (<[h := GHandleRead done (H152 wait r)]> (threads w)))
               (set_mu (Some h) w)).
  assert (Exec [EvGo h (Frame b); EvGo h Go; EvGo h Go; EvGo g Timer] w = Some w1) as Hx.
  { subst w1. destruct w as [tg dop cs cn mc m sb hp ch cl cr wr th]; simpl in *; subst.
    unfold Step, goroutine_step. simpl. rewrite Hh. simpl. rewrite Hb. simpl.
    rewrite list_lookup_insert_eq by done. simpl.
    rewrite list_insert_insert_eq, list_lookup_insert_eq by done. simpl.
    rewrite decide_True by done. rewrite Hm. simpl.
    rewrite list_insert_insert_eq.
    rewrite list_lookup_insert_ne by done. rewrite Hg. simpl. done. }
  exists w1. split; [done|].
  assert (deadlocked g h (CallId r) wait done r w1) as Hd.
  { subst w1. repeat split; simpl; try done.
    - rewrite list_lookup_insert_ne by done. by apply list_lookup_insert_eq.
    - apply list_lookup_insert_eq. by rewrite length_insert.
    - intros j x Hj.
      apply list_lookup_insert_Some in Hj as [(-> & <- & _)|[Hjg Hj]]; [simpl; tauto|].
      apply list_lookup_insert_Some in Hj as [(-> & <- & _)|[_ Hj]]; [simpl; tauto|].
      by eapply (Hrecv j). }
  intros es w2 Hx2.
  by destruct (deadlocked_Exec _ _ _ _ _ _ _ _ _ Hd Hx2) as (? & ? & ? & ? & _).
Qed.

End ClientConnFacts.

(** * The model at work on the concrete handle *)

Lemma dialed_world_is_Dial :
  Dial tt 0 "ws://peer"%string [] = (Some dialed_world, None).
Proof. reflexivity. Qed.

Lemma ready_conn_reachable :
  run (successful_dial 0 ++ [EvLoop 0 Next]) (0, fresh_conn) = Some (0, ready_conn).
Proof. reflexivity. Qed.

Lemma pending_world_reachable :
  Exec pending_schedule dialed_world = Some pending_world.
Proof. vm_compute. reflexivity. Qed.

Lemma reconnected_world_reachable :
  Exec reconnect_schedule dialed_world = Some reconnected_world.
Proof. vm_compute. reflexivity. Qed.

(** The response to call [a] arrives in time: the call returns without
    error and its entry is gone. *)
Lemma echo_delivered :
  Exec [EvGo 1 (Frame echo_response); EvGo 1 Go; EvGo 1 Go; EvSend 1 2;
        EvGo 1 Go; EvGo 2 Go] pending_world =
  Some (set_threads [GListenForRead; GHandleRead 0 H121; GInvoke (IReturned None)]
          (set_methodCalls ∅ pending_world)).
Proof. vm_compute. reflexivity. Qed.

(** The response to call [a] arrives after the timeout: it is dropped. *)
Lemma late_echo_dropped :
  Exec [EvGo 2 Timer; EvGo 2 Go; EvGo 2 Go;
        EvGo 1 (Frame echo_response); EvGo 1 Go; EvGo 1 Go; EvGo 1 Go] pending_world =
  Some (set_threads [GListenForRead; GHandleRead 0 (H122 0);
                     GInvoke (IReturned (Some errCallTimeout))]
          (set_methodCalls ∅ pending_world)).
Proof. vm_compute. reflexivity. Qed.

(** C2, as the claim states it, fails on [ready_conn]: the close
    notification takes the state from [Ready] to [Idle], not to
    [Connecting], and the subscriber is sent [Idle] before [Connecting]. *)
Lemma transport_failure_passes_through_idle :
  exists c1 c2,
    step (EvOnClose 0) (0, ready_conn) = Some (0, c1) /\
    state (ac c1) = Idle /\
    (state (ac c1) <> Connecting) /\
    run [EvLoop 0 Next; EvLoop 0 Next] (0, c1) = Some (1, c2) /\
    state (ac c2) = Connecting /\
    stateCh (ac c2) = stateCh (ac ready_conn) ++ [Idle; Connecting] /\
    (stateCh (ac c2) <> stateCh (ac ready_conn) ++ [Connecting]).
Proof.
  eexists _, _. repeat split; try reflexivity; vm_compute; discriminate.
Qed.

Lemma transport_failure_reconnects_ready_conn :
  state (ac ready_conn) = Ready /\
  loops ready_conn !! 0 = Some (Blocked 0) /\
  0 < dials ready_conn /\
  (0 ∉ once ready_conn) /\
  bs (ac ready_conn) = Some DefaultExponential /\
  exists c1 c2,
    step (EvOnClose 0) (0, ready_conn) = Some (0, c1) /\
    state (ac c1) = Idle /\
    stateCh (ac c1) = stateCh (ac ready_conn) ++ [Idle] /\
    run [EvLoop 0 Next; EvLoop 0 Next] (0, c1) = Some (snd (NextBackOff 0), c2) /\
    state (ac c2) = Connecting /\
    transport (ac c2) = None /\
    stateCh (ac c2) = stateCh (ac ready_conn) ++ [Idle; Connecting] /\
    loops c2 !! 0 = Some (Dialing (fst (NextBackOff 0))).
Proof.
  assert (0 ∉ once ready_conn) as Ho by (simpl; apply not_elem_of_nil).
  repeat split; try reflexivity; [simpl; lia|exact Ho|].
  apply (transport_failure_reconnects ready_conn 0 0 0);
    [reflexivity|reflexivity|simpl; lia|exact Ho|reflexivity].
Defined.

Lemma teardown_idempotent_terminal_ready_conn :
  (state (ac ready_conn) <> Shutdown) /\
  teardown ready_conn =
    mkConn (AddrConn "ws://peer"%string (Some DefaultExponential) None Shutdown
              [Connecting; Ready; Shutdown] true) 1 [] [] [0] [Blocked 0] /\
  teardown (teardown ready_conn) = teardown ready_conn /\
  exists c',
    run [EvConnect; EvOnClose 0; EvLoop 0 Next; EvLoop 0 Next; EvTeardown]
      (0, teardown ready_conn) = Some (0, c') /\
    loops c' = [Returned] /\
    state (ac c') = Shutdown.
Proof.
  assert (state (ac ready_conn) <> Shutdown) as Hs by discriminate.
  split; [exact Hs|]. split; [|split].
  - exact (proj1 (teardown_idempotent_terminal ready_conn [] 0 0 ready_conn) Hs).
  - exact (proj1 (proj2 (teardown_idempotent_terminal ready_conn [] 0 0 ready_conn))).
  - eexists. split; [reflexivity|]. split; [reflexivity|].
    exact (proj2 (proj2 (teardown_idempotent_terminal ready_conn
             [EvConnect; EvOnClose 0; EvLoop 0 Next; EvLoop 0 Next; EvTeardown] 0 0 _))
             eq_refl).
Defined.

(** C7, as the claim states it, fails when two handles are open: their
    connections, each as [Dial] leaves it, share the strategy.  The first
    connection's dial succeeds at once and resets the strategy; the retry
    loop of the second connection then draws a delay; when the first
    connection loses its transport and its next dial fails, it waits the
    strategy's second delay, not the initial one, although no failure of
    its own preceded. *)
Lemma second_handle_draw_outlasts_reset :
  run_at (at_conn 0 (successful_dial 0 ++ [EvLoop 0 Next]))
    (initial, [fresh_conn; fresh_conn]) = Some (initial, [ready_conn; fresh_conn]) /\
  run_at [(1, EvLoop 0 Next)] (initial, [ready_conn; fresh_conn])
    = Some (advance initial, [ready_conn; drawing_conn]) /\
  run_at (at_conn 0 (EvOnClose 0 :: EvLoop 0 Next :: failing_dial 0))
    (advance initial, [ready_conn; drawing_conn])
    = Some (advance (advance initial), [waiting_conn; drawing_conn]) /\
  state (ac waiting_conn) = TransientFailure /\
  loops waiting_conn !! 0 = Some (Waiting 200) /\
  @initial_delay nat _ = 100%Z /\
  (loops waiting_conn !! 0 <> Some (Waiting initial_delay)).
Proof.
  split; [vm_compute; reflexivity|]. split; [vm_compute; reflexivity|].
  split; [vm_compute; reflexivity|]. do 3 (split; [reflexivity|]).
  vm_compute. discriminate.
Qed.

Lemma backoff_reset_after_three_failures :
  [fresh_conn; fresh_conn] !! 0 = Some fresh_conn /\
  loops fresh_conn !! 0 = Some Top /\
  (state (ac fresh_conn) <> Shutdown) /\
  bs (ac fresh_conn) = Some DefaultExponential /\
  exists c1 c2 c3,
    run_at (at_conn 0 (mjoin (replicate 3 (failed_attempt 0))))
      (0, [fresh_conn; fresh_conn]) = Some (Nat.iter 3 advance 0, [c1; fresh_conn]) /\
    run_at (at_conn 0 (successful_dial 0)) (Nat.iter 3 advance 0, [c1; fresh_conn])
      = Some (advance (Nat.iter 3 advance 0), [c2; fresh_conn]) /\
    loops c2 !! 0 = Some (DialOk 3) /\
    run_at (at_conn 0 [EvLoop 0 Next])
      (advance (Nat.iter 3 advance 0), [c2; fresh_conn]) = Some (initial, [c3; fresh_conn]) /\
    loops c3 !! 0 = Some (Blocked 3) /\
    state (ac c3) = Ready /\
    transport (ac c3) = Some 3 /\
    forall others b4 cs4,
      Forall (fun ae => ae.1 <> 0) others ->
      run_at others (initial, [c3; fresh_conn]) = Some (b4, cs4) ->
      exists c4,
        run_at (at_conn 0 (EvOnClose 3 :: EvLoop 0 Next :: failing_dial 0)) (b4, cs4)
          = Some (advance b4, <[0 := c4]> cs4) /\
        loops c4 !! 0 = Some (Waiting (fst (NextBackOff b4))) /\
        state (ac c4) = TransientFailure /\
        (draws_nothing others (initial, [c3; fresh_conn]) ->
         b4 = initial /\ loops c4 !! 0 = Some (Waiting initial_delay)).
Proof.
  assert (state (ac fresh_conn) <> Shutdown) as Hs by discriminate.
  split; [reflexivity|]. split; [reflexivity|]. split; [exact Hs|]. split; [reflexivity|].
  exact (backoff_drawn_every_iteration_reset_on_success [fresh_conn; fresh_conn]
           0 fresh_conn 0 3 0 eq_refl eq_refl Hs eq_refl).
Defined.

Lemma timeout_racing_delivery_deadlocks_pending_world :
  threads pending_world !! 2 = Some (GInvoke (I205 "a"%string 1)) /\
  threads pending_world !! 1 = Some (GHandleRead 0 (H122 0)) /\
  methodCalls pending_world !! "a"%string = Some 1 /\
  mu pending_world = None /\
  UnmarshalMessage echo_response = inl (mkMessage (Some (Message_Response echo_reply))) /\
  exists w1,
    Exec [EvGo 1 (Frame echo_response); EvGo 1 Go; EvGo 1 Go; EvGo 2 Timer] pending_world
      = Some w1 /\
    forall es w2, Exec es w1 = Some w2 ->
      methodCalls w2 !! "a"%string = Some 1 /\
      mu w2 = Some 1 /\
      threads w2 !! 2 = Some (GInvoke (I214 "a"%string)) /\
      threads w2 !! 1 = Some (GHandleRead 0 (H152 1 echo_reply)).
Proof.
  do 5 (split; [reflexivity|]).
  apply (timeout_racing_delivery_deadlocks pending_world 2 1 "a"%string 1 0 0
           echo_response echo_reply); try reflexivity.
  intros [|[|[|g']]] t' Hne Ht; try done; simpl in Ht; simplify_eq; simpl; tauto.
Defined.

Lemma Invoke_after_Close_panics_dialed_world :
  mu dialed_world = None /\
  conn dialed_world = Some 0 /\
  heap dialed_world !! 0 = Some fresh_conn /\
  exists w',
    Exec ((EvCall CallClose :: replicate 4 (EvGo 1 Go))
          ++ [EvCall (CallInvoke "Echo"%string hi "a"%string); EvGo 2 Go])
      dialed_world = Some w' /\
    conn w' = None /\
    heap w' !! 0 = Some (teardown fresh_conn) /\
    threads w' !! 1 = Some (GClose CReturned) /\
    threads w' !! 2 = Some (GInvoke IPanicked).
Proof.
  do 3 (split; [reflexivity|]).
  exact (Invoke_after_Close_panics dialed_world 0 fresh_conn "Echo"%string
           hi "a"%string eq_refl eq_refl eq_refl).
Defined.

Lemma listenForRead_leaves_old_loop_running_reconnected_world :
  threads reconnected_world !! 0 = Some GListenForRead /\
  csCh reconnected_world = Some 0 /\
  drop (csRecv reconnected_world)
    [Connecting; Ready; Idle; Connecting; Ready] = [Ready; Idle; Connecting; Ready] /\
  exists w',
    Exec (replicate 4 (EvGo 0 Go)) reconnected_world = Some w' /\
    threads w' = [GListenForRead; GHandleRead 0 H121; GHandleRead 1 H121] /\
    closedCh w' = [] /\
    forall es w'', Exec es w' = Some w'' -> closedCh w'' = [].
Proof.
  do 3 (split; [reflexivity|]).
  exact (listenForRead_leaves_old_loop_running reconnected_world 0 0 _
           eq_refl eq_refl eq_refl eq_refl).
Defined.

Lemma Invoke_not_ready_dialed_world :
  (state (ac fresh_conn) <> Ready) /\
  exists w',
    Step (EvGo 1 Go)
      (spawn (GInvoke (I170 "Echo"%string hi "a"%string)) dialed_world) = Some w' /\
    w' = set_threads [GListenForRead; GInvoke (IReturned (Some errNotReady))] dialed_world /\
    threads w' !! 1 = Some (GInvoke (IReturned (Some errNotReady))) /\
    written w' = [] /\
    methodCalls w' = ∅.
Proof.
  assert (state (ac fresh_conn) <> Ready) as Hs by discriminate.
  split; [exact Hs|].
  exact (Invoke_not_ready
           (spawn (GInvoke (I170 "Echo"%string hi "a"%string)) dialed_world)
           1 "Echo"%string hi "a"%string 0 fresh_conn
           eq_refl eq_refl eq_refl Hs).
Defined.

Lemma unmatched_response_ignored_pending_world :
  threads pending_world !! 1 = Some (GHandleRead 0 (H122 0)) /\
  conn_transport pending_world = Some 0 /\
  mu pending_world = None /\
  UnmarshalMessage stray_response = inl (mkMessage (Some (Message_Response stray_reply))) /\
  methodCalls pending_world !! "z"%string = None /\
  Exec [EvGo 1 (Frame stray_response); EvGo 1 Go; EvGo 1 Go; EvGo 1 Go] pending_world
    = Some pending_world.
Proof.
  do 5 (split; [reflexivity|]).
  exact (unmatched_response_ignored pending_world 1 0 0 stray_response stray_reply
           eq_refl eq_refl eq_refl eq_refl eq_refl).
Defined.

(** * More on the connectivity state machine *)

Section AddrConnMore.
Context {B : Type} `{!Strategy B}.
Implicit Types (c : Conn) (a : addrConn) (b : B).

Lemma updateConnectivityState_cases s a :
  (state a = s /\ updateConnectivityState s a = a) \/
  (state a <> s /\
   updateConnectivityState s a =
   AddrConn (addr a) (bs a) (transport a) s (stateCh a ++ [s]) (cancelled a)).
Proof.
  unfold updateConnectivityState. case_decide; [by left|by right].
Qed.

Lemma resetTransport_step_ac i p b c p' b' c' :
  resetTransport_step i p b c = Some (p', b', c') -> ac_change (ac c) (ac c').
Proof.
  intros Hs. destruct p, i; simpl in Hs; try done.
  - case_decide; simplify_eq; [by apply ac_keep|].
    destruct (bs (ac c)) as [[]|]; simplify_eq; [|by apply ac_keep].
    destruct (NextBackOff b). simplify_eq. simpl. by apply ac_update.
  - simplify_eq. by apply ac_keep.
  - case_decide; simplify_eq; [by apply ac_keep|]. simpl. by apply ac_update.
  - simplify_eq. by apply ac_keep.
  - destruct (cancelled (ac c)); simplify_eq. by apply ac_keep.
  - case_decide; simplify_eq; [by apply ac_keep|]. simpl in *.
    destruct (bs (ac c)) as [[]|]; simplify_eq; simpl; [by apply ac_update|by apply ac_keep].
  - case_decide; simplify_eq. by apply ac_keep.
Qed.

Lemma step_ac e b c b' c' :
  step e (b, c) = Some (b', c') -> ac_change (ac c) (ac c').
Proof.
  intros Hs. apply step_cases in Hs
    as [(_ & _ & ->)|[(_ & _ & ->)|[(k & _ & _ & _ & ->)
       |(g & i & p & p' & c1 & _ & _ & Hr & ->)]]].
  - unfold connect. repeat case_decide; simpl; try by apply ac_keep.
    by apply ac_update.
  - unfold teardown. case_decide; [by apply ac_keep|].
    assert (ac_change (ac c)
              (cancel (set_transport None (updateConnectivityState Shutdown (ac c))))).
    { destruct (updateConnectivityState_cases Shutdown (ac c)) as [[? ->]|[? ->]].
      - by apply ac_keep.
      - replace (cancel _) with
          (updateConnectivityState Shutdown (cancel (set_transport None (ac c)))).
        + by apply ac_update.
        + unfold updateConnectivityState. simpl. by rewrite decide_False. }
    by destruct (transport _).
  - unfold onClose, once_Do, reconnect_Fire. simpl. case_decide; simpl; [by apply ac_keep|].
    case_decide; simpl; [by apply ac_update|by apply ac_keep].
  - simpl. by eapply resetTransport_step_ac.
Qed.

Lemma no_repeat_snoc l x s :
  last l = Some x -> x <> s -> no_repeat l -> no_repeat (l ++ [s]).
Proof.
  intros Hl Hx Hn i y z Hy Hz.
  destruct (decide (S i < length l)) as [Hlt|Hge].
  - rewrite lookup_app_l in Hy by lia. rewrite lookup_app_l in Hz by lia. by eapply Hn.
  - assert (S i = length l) as Hi.
    { apply lookup_lt_Some in Hz. rewrite length_app in Hz. simpl in Hz. lia. }
    rewrite lookup_app_l in Hy by lia.
    rewrite lookup_app_r in Hz by lia. rewrite Hi, Nat.sub_diag in Hz. simplify_eq.
    rewrite last_lookup in Hl. replace (pred (length l)) with i in Hl by lia.
    simpl in Hz. congruence.
Qed.

(** What a change of the [addrConn] sends: the new state if it differs
    from the old one, and nothing else. *)
Lemma ac_change_sent a a' :
  ac_change a a' ->
  stateCh a' = stateCh a ++ (if decide (state a' = state a) then [] else [state a']).
Proof.
  intros [s a1 Hs Hc|a1 Hs Hc].
  - destruct (updateConnectivityState_cases s a1) as [[E ->]|[E ->]]; simpl.
    + rewrite decide_True by done. by rewrite Hc, app_nil_r.
    + rewrite decide_False by congruence. by rewrite Hc.
  - rewrite decide_True by done. by rewrite Hc, app_nil_r.
Qed.

Lemma ac_change_publishes a a' :
  ac_change a a' ->
  last (Idle :: stateCh a) = Some (state a) -> no_repeat (Idle :: stateCh a) ->
  last (Idle :: stateCh a') = Some (state a') /\ no_repeat (Idle :: stateCh a').
Proof.
  intros Hch Hl Hn. rewrite (ac_change_sent _ _ Hch).
  case_decide as E; [by rewrite app_nil_r, E|].
  rewrite app_comm_cons. split; [by rewrite last_snoc|].
  eapply no_repeat_snoc; [done| |done]. congruence.
Qed.

(** X1.  The values sent on [stateCh] are the changes of the connectivity
    state, each once, and nothing else: along every run of [connect],
    [teardown], close notifications and retry-loop steps, what is sent is
    the sequence of states the connection goes through with every state
    that equals the one before it left out.  Hence, on a connection whose
    sent states, after the initial [Idle], end in the current state and
    never hold the same state twice in a row, every run keeps both. *)
Theorem state_changes_published b c es b' c' :
  run es (b, c) = Some (b', c') ->
  stateCh (ac c') =
    stateCh (ac c) ++ changes (state (ac c)) (states_along es (b, c)) /\
  (publishes_changes c -> publishes_changes c').
Proof.
  revert b c. induction es as [|e es IH]; intros b c Hrun; simpl in Hrun.
  - simplify_eq. simpl. by rewrite app_nil_r.
  - simpl. destruct (step e (b, c)) as [[b1 c1]|] eqn:He; simpl in Hrun; [|done].
    pose proof (step_ac _ _ _ _ _ He) as Hch.
    destruct (IH b1 c1 Hrun) as [Hsent Hpub]. split.
    + rewrite Hsent, (ac_change_sent _ _ Hch). simpl.
      case_decide as E; [by rewrite app_nil_r, E|]. by rewrite <- app_assoc.
    + intros [Hl Hn]. apply Hpub. by apply (ac_change_publishes _ _ Hch).
Qed.

Lemma updateConnectivityState_transport s a :
  transport (updateConnectivityState s a) = transport a.
Proof. unfold updateConnectivityState. by case_decide. Qed.

Ltac agree :=
  unfold transport_agrees in *; simpl in *;
  rewrite ?updateConnectivityState_state, ?updateConnectivityState_transport;
  simpl; solve [intuition (simplify_eq; eauto)].

Lemma step_transport_agrees e b c b' c' :
  transport_agrees c -> step e (b, c) = Some (b', c') -> transport_agrees c'.
Proof.
  intros Hc Hs. apply step_cases in Hs
    as [(_ & _ & ->)|[(_ & _ & ->)|[(k & _ & _ & _ & ->)
       |(g & i & p & p' & c1 & _ & _ & Hs & ->)]]].
  - unfold connect. repeat case_decide; agree.
  - unfold teardown. case_decide; [done|]. destruct (transport _); agree.
  - unfold onClose, once_Do, reconnect_Fire. repeat case_decide; agree.
  - destruct p, i; simpl in Hs; try done.
    + case_decide; simplify_eq; [agree|].
      destruct (bs (ac c)) as [[]|]; simplify_eq; [|agree].
      destruct (NextBackOff b). simplify_eq. agree.
    + simplify_eq. agree.
    + case_decide; simplify_eq; agree.
    + simplify_eq. agree.
    + destruct (cancelled (ac c)); simplify_eq. agree.
    + case_decide; simplify_eq; [agree|]. simpl in Hs.
      destruct (bs (ac c)) as [[]|]; simplify_eq; agree.
    + case_decide; simplify_eq. agree.
Qed.

(** X2.  The transport reference follows the state: if a connection has
    a transport whenever it is [Ready] and none whenever it is [Shutdown],
    then so it has after every run. *)
Theorem transport_follows_state c es b b' c' :
  transport_agrees c ->
  run es (b, c) = Some (b', c') ->
  transport_agrees c'.
Proof.
  revert b c. induction es as [|e es IH]; intros b c Hc Hrun; simpl in Hrun.
  - by simplify_eq.
  - destruct (step e (b, c)) as [[b1 c1]|] eqn:He; simpl in Hrun; [|done].
    eapply IH; [|done]. by eapply step_transport_agrees.
Qed.

Lemma elem_of_insert_inv (l : list pc) g p q :
  q ∈ <[g := p]> l -> q = p \/ q ∈ l.
Proof.
  intros Hq. apply list_elem_of_lookup in Hq as [j Hj].
  apply list_lookup_insert_Some in Hj as [(_ & <- & _)|[_ Hj]]; [by left|].
  right. apply list_elem_of_lookup. eauto.
Qed.

(** X3.  Only a successful dial makes a connection [Ready]: from a
    connection that is not [Ready] and has no dial waiting to be adopted,
    a run in which no dial succeeds never reaches [Ready]. *)
Theorem ready_needs_successful_dial c es b b' c' :
  state (ac c) <> Ready ->
  no_dial_adopted c ->
  (forall g, EvLoop g (DialResult true) ∉ es) ->
  run es (b, c) = Some (b', c') ->
  state (ac c') <> Ready /\ no_dial_adopted c'.
Proof.
  revert b c. induction es as [|e es IH]; intros b c Hs Hn Hes Hrun; simpl in Hrun.
  { by simplify_eq. }
  destruct (step e (b, c)) as [[b1 c1]|] eqn:He; simpl in Hrun; [|done].
  assert (forall g, e <> EvLoop g (DialResult true)) as Hne.
  { intros g ->. apply (Hes g). by left. }
  eapply (IH b1 c1); [| |intros g Hg; apply (Hes g); by right|done].
  - apply step_cases in He
      as [(_ & _ & ->)|[(_ & _ & ->)|[(k & _ & _ & _ & ->)
         |(g & i & p & p' & c2 & -> & Hp & Hr & ->)]]].
    + unfold connect. repeat case_decide; simpl; try done.
      by rewrite updateConnectivityState_state.
    + pose proof (teardown_shutdown c) as E. congruence.
    + unfold onClose, once_Do, reconnect_Fire. simpl. repeat case_decide; simpl; done.
    + simpl. destruct p, i; simpl in Hr; try done.
      * case_decide; simplify_eq; [done|].
        destruct (bs (ac c)) as [[]|]; simplify_eq; [|done].
        destruct (NextBackOff b). simplify_eq. simpl.
        by rewrite updateConnectivityState_state.
      * by simplify_eq.
      * case_decide; simplify_eq; [done|]. simpl.
        by rewrite updateConnectivityState_state.
      * by simplify_eq.
      * destruct (cancelled (ac c)); by simplify_eq.
      * by destruct (Hn g newTr).
      * case_decide; by simplify_eq.
  - intros g0 k0 Hg0.
    apply step_cases in He
      as [(_ & _ & ->)|[(_ & _ & ->)|[(k & _ & _ & _ & ->)
         |(g & i & p & p' & c2 & -> & Hp & Hr & ->)]]].
    + unfold connect in Hg0. repeat case_decide; simpl in Hg0; try by eapply Hn.
      apply lookup_app_Some in Hg0 as [Hg0|[_ Hg0]]; [by eapply Hn|].
      by apply list_lookup_singleton_Some in Hg0 as [_ ?].
    + unfold teardown in Hg0. case_decide; [by eapply Hn|].
      destruct (transport _); simpl in Hg0; by eapply Hn.
    + unfold onClose, once_Do, reconnect_Fire in Hg0. simpl in Hg0.
      repeat case_decide; simpl in Hg0; by eapply Hn.
    + simpl in Hg0. rewrite (resetTransport_step_loops _ _ _ _ _ _ _ Hr) in Hg0.
      apply list_lookup_insert_Some in Hg0 as [(Eg & Ep & _)|[_ Hg0]]; [|by eapply Hn].
      subst g0 p'.
      destruct p, i; simpl in Hr; try done; repeat case_decide; simplify_eq.
      * destruct (bs (ac c)) as [[]|]; simplify_eq.
        destruct (NextBackOff b). simplify_eq.
      * destruct ok; simplify_eq. by destruct (Hne g).
      * destruct (cancelled (ac c)); simplify_eq.
      * simpl in Hr. destruct (bs (ac c)) as [[]|]; simplify_eq.
Qed.

(** X4.  Only [teardown] ends a connection: in a run without [teardown],
    a connection that is not [Shutdown], whose context is not cancelled
    and whose retry goroutines are all running, stays so. *)
Theorem alive_until_teardown c es b b' c' :
  alive c ->
  EvTeardown ∉ es ->
  run es (b, c) = Some (b', c') ->
  alive c'.
Proof.
  revert b c. induction es as [|e es IH]; intros b c Ha Hes Hrun; simpl in Hrun.
  { by simplify_eq. }
  destruct (step e (b, c)) as [[b1 c1]|] eqn:He; simpl in Hrun; [|done].
  assert (e <> EvTeardown) as Hne by (intros ->; apply Hes; by left).
  eapply (IH b1 c1); [|intros Hin; apply Hes; by right|done].
  destruct Ha as (Hs & Hc & Hl).
  apply step_cases in He
    as [(_ & _ & ->)|[(-> & _)|[(k & _ & _ & _ & ->)
       |(g & i & p & p' & c2 & -> & Hp & Hr & ->)]]];
    [| done | |].
  - unfold connect. rewrite decide_False by done. case_decide; [done|].
    split; [|split]; simpl.
    + by rewrite updateConnectivityState_state.
    + by destruct (updateConnectivityState_fields Connecting (ac c)) as (_ & _ & _ & ->).
    + intros Hin. apply elem_of_app in Hin as [Hin|Hin]; [done|].
      by apply list_elem_of_singleton in Hin.
  - destruct (onClose_facts k c) as (Hl1 & _ & _ & _ & Hs1).
    split; [by apply Hs1|]. split; [|by rewrite Hl1].
    unfold onClose, once_Do, reconnect_Fire. simpl. repeat case_decide; simpl; try done.
    by destruct (updateConnectivityState_fields Idle (ac c)) as (_ & _ & _ & ->).
  - assert (p' <> Returned /\ state (ac c2) <> Shutdown /\ cancelled (ac c2) = false)
      as (Hp' & Hs2 & Hc2).
    { destruct p, i; simpl in Hr; try done.
      - rewrite decide_False in Hr by done.
        destruct (bs (ac c)) as [[]|]; simplify_eq; [|done].
        destruct (NextBackOff b). simplify_eq. simpl.
        rewrite updateConnectivityState_state.
        by destruct (updateConnectivityState_fields Connecting
             (set_transport None (ac c))) as (_ & _ & _ & ->).
      - simplify_eq. by destruct ok.
      - rewrite decide_False in Hr by done. simplify_eq. simpl.
        rewrite updateConnectivityState_state.
        by destruct (updateConnectivityState_fields TransientFailure (ac c))
          as (_ & _ & _ & ->).
      - by simplify_eq.
      - by rewrite Hc in Hr.
      - rewrite decide_False in Hr by done. simpl in Hr.
        destruct (bs (ac c)) as [[]|]; simplify_eq; simpl; [|done].
        rewrite updateConnectivityState_state.
        by destruct (updateConnectivityState_fields Ready
             (set_transport (Some newTr) (ac c)))
          as (_ & _ & _ & ->).
      - case_decide; by simplify_eq. }
    split; [done|]. split; [done|]. simpl.
    rewrite (resetTransport_step_loops _ _ _ _ _ _ _ Hr).
    intros Hin. apply elem_of_insert_inv in Hin as [?|?]; congruence.
Qed.

(** X5.  Once the connection is [Shutdown], a step of the retry loop
    leaves the [addrConn] and the strategy as they are and starts no
    dial; a transport the loop had just dialed is closed and the loop
    returns; and from wherever the step leads, the next step under
    [Shutdown] returns. *)
Theorem retry_loop_winds_down c i p b p' b' c' :
  state (ac c) = Shutdown ->
  resetTransport_step i p b c = Some (p', b', c') ->
  ac c' = ac c /\
  b' = b /\
  (forall d, p' <> Dialing d) /\
  (forall k, p = DialOk k -> p' = Returned /\ closed c' = closed c ++ [k]) /\
  (p' = Returned \/
   forall i2 b2 c2 p2 b2' c2',
     state (ac c2) = Shutdown ->
     resetTransport_step i2 p' b2 c2 = Some (p2, b2', c2') -> p2 = Returned).
Proof.
  intros Hs Hr.
  assert (forall i2 b2 (c2 : Conn) p2 b2' c2',
            state (ac c2) = Shutdown ->
            resetTransport_step i2 Top b2 c2 = Some (p2, b2', c2') -> p2 = Returned) as HTop.
  { intros i2 b2 c2 p2 b2' c2' Hs2 H2. destruct i2; simpl in H2; try done.
    rewrite decide_True in H2 by done. by simplify_eq. }
  destruct p, i; simpl in Hr; try done;
    try (rewrite decide_True in Hr by done); simplify_eq.
  - split; [done|]. split; [done|]. split; [done|]. split; [done|]. by left.
  - split; [done|]. split; [done|]. split; [by destruct ok|]. split; [done|]. right.
    intros i2 b2 c2 p2 b2' c2' Hs2 H2. destruct ok, i2; simpl in H2; try done;
      rewrite decide_True in H2 by done; by simplify_eq.
  - split; [done|]. split; [done|]. split; [done|]. split; [done|]. by left.
  - split; [done|]. split; [done|]. split; [done|]. split; [done|]. right. apply HTop.
  - destruct (cancelled (ac c)); simplify_eq.
    split; [done|]. split; [done|]. split; [done|]. split; [done|]. by left.
  - split; [done|]. split; [done|]. split; [done|]. split; [by intros ? [= <-]|]. by left.
  - case_decide; simplify_eq.
    split; [done|]. split; [done|]. split; [done|]. split; [done|]. right. apply HTop.
Qed.

(** X6.  [connect] is idempotent: a second call changes nothing and
    starts no second retry goroutine, and any number of calls in a row
    amounts to one. *)
Theorem connect_idempotent c b n :
  connect (fst (connect c)) = connect c /\
  run (replicate (S n) EvConnect) (b, c) = Some (b, fst (connect c)).
Proof.
  assert (connect (fst (connect c)) = connect c) as H1.
  { unfold connect at 2 3. repeat case_decide; simpl.
    - unfold connect. by rewrite decide_True.
    - unfold connect. rewrite decide_False by done. by rewrite decide_True.
    - unfold connect. simpl. rewrite updateConnectivityState_state.
      rewrite decide_False by done. by rewrite decide_True. }
  split; [done|].
  induction n as [|n IH]; [done|].
  change (replicate (S (S n)) EvConnect) with (EvConnect :: replicate (S n) EvConnect).
  rewrite (run_step _ _ _ _ (eq_refl : step EvConnect (b, c) = Some (b, fst (connect c)))).
  clear IH. induction n as [|n IH]; simpl; [by rewrite H1|].
  rewrite H1. simpl. exact IH.
Qed.

End AddrConnMore.

(** * More on the handle *)

Section ClientConnMore.
Context {B : Type} `{!Strategy B}.
Context {Args : Type} `{!Codec Args}.
Context {ConnectOptions : Type} (copts0 : ConnectOptions).
Implicit Types (w : @World B Args ConnectOptions).

Ltac wsimpl :=
  cbv [set_threads set_mu set_methodCalls set_strategy set_heap set_conn set_csCh
       set_dopts make_chan close_chan recv_csCh transport_Write spawn
       removeMethodCall registerMethodCall mu_Lock conn_transport
       target dopts csCh conn methodCalls mu strategy heap chans closedCh csRecv
       written threads]; simpl.

Ltac crunch :=
  unfold mu_Lock, listenForRead_step, rendezvous, registerMethodCall in *;
  repeat (done || simplify_option_eq || case_match).

(** X9.  On a [Ready] connection, if marshalling the arguments or the
    request fails, [Invoke] returns that error at once: nothing is
    registered, nothing is written, [cc.mu] is not taken. *)
Theorem Invoke_marshal_error w g method args callID a c err :
  threads w !! g = Some (GInvoke (I170 method args callID)) ->
  conn w = Some a ->
  heap w !! a = Some c ->
  state (ac c) = Ready ->
  (MarshalProtoMessage args = inr err \/
   exists payload,
     MarshalProtoMessage args = inl payload /\
     proto_Marshal (request_of callID method payload) = inr err) ->
  Step (EvGo g Go) w =
  Some (set_threads (<[g := GInvoke (IReturned (Some err))]> (threads w)) w).
Proof.
  intros Hg Hc Ha Hs Herr. eapply Step_go; [done|]. simpl.
  rewrite Hc. simpl. rewrite Ha. simpl. rewrite decide_False by (by rewrite Hs; intros ?).
  destruct Herr as [->|(payload & -> & Hm)]; [done|].
  unfold request_of in Hm. by rewrite Hm.
Qed.


Lemma Invoke_reaches_select w g method args callID a c t payload msgB :
  threads w !! g = Some (GInvoke (I170 method args callID)) ->
  conn w = Some a -> heap w !! a = Some c ->
  state (ac c) = Ready -> transport (ac c) = Some t ->
  mu w = None ->
  MarshalProtoMessage args = inl payload ->
  proto_Marshal (request_of callID method payload) = inl msgB ->
  Exec (Invoke_to_select g) w =
  Some (set_threads (<[g := GInvoke (I205 callID (chans w))]> (threads w))
          (transport_Write t msgB
             (set_methodCalls (<[callID := chans w]> (methodCalls w)) (make_chan w)))).
Proof.
  intros Hg Hc Ha Hs Ht Hmu Hp Hm.
  assert (g < length (threads w)) as Hlg by (by eapply lookup_lt_Some).
  destruct w as [tg dop cs cn mc m sb hp ch cl cr wr th]; simpl in *; subst.
  unfold Invoke_to_select, request_of in *.
  unfold Exec, Step, goroutine_step. wsimpl. rewrite Hg. wsimpl.
  rewrite Ha. wsimpl. rewrite decide_False by (by rewrite Hs; intros ?).
  rewrite Hp, Hm. wsimpl.
  rewrite list_lookup_insert_eq by done. wsimpl.
  rewrite list_insert_insert_eq, list_lookup_insert_eq by done. wsimpl.
  rewrite decide_True by done. wsimpl.
  rewrite list_insert_insert_eq, list_lookup_insert_eq by done. wsimpl. wsimpl.
  rewrite Ha. wsimpl. rewrite Ht. wsimpl.
  by rewrite list_insert_insert_eq.
Qed.

(** X10.  On a [Ready] connection with [cc.mu] free, an [Invoke] whose
    arguments and request marshal, and whose timer fires before a
    response arrives, returns the timeout error; its request was
    written once, its channel was made, and the call table is what it was
    before the call. *)
Theorem Invoke_times_out w g method args callID a c t payload msgB :
  threads w !! g = Some (GInvoke (I170 method args callID)) ->
  conn w = Some a ->
  heap w !! a = Some c ->
  state (ac c) = Ready ->
  transport (ac c) = Some t ->
  mu w = None ->
  MarshalProtoMessage args = inl payload ->
  proto_Marshal (request_of callID method payload) = inl msgB ->
  methodCalls w !! callID = None ->
  Exec (Invoke_to_select g ++ [EvGo g Timer; EvGo g Go; EvGo g Go]) w =
  Some (set_threads (<[g := GInvoke (IReturned (Some errCallTimeout))]> (threads w))
          (transport_Write t msgB (make_chan w))).
Proof.
  intros Hg Hc Ha Hs Ht Hmu Hp Hm Hfresh.
  assert (g < length (threads w)) as Hlg by (by eapply lookup_lt_Some).
  rewrite Exec_app.
  erewrite Invoke_reaches_select by done. cbn [mbind option_bind].
  erewrite timeout_before_delivery;
    [|simpl; by apply list_lookup_insert_eq|done].
  destruct w as [tg dop cs cn mc m sb hp ch cl cr wr th]; wsimpl. simpl in *.
  by rewrite list_insert_insert_eq, delete_insert_id.
Qed.

(** X11.  The round trip: on a [Ready] connection with [cc.mu] free, an
    [Invoke] writes its request and waits; when the dispatch loop then
    reads a response that carries the call's identifier, it sends the
    payload to the call, [Invoke] returns what unmarshalling the payload
    into the reply gives, the dispatch loop is back at its select, and
    the call table is what it was before the call. *)
Theorem Invoke_receives_reply w g h done t' method args callID a c t payload msgB b r :
  threads w !! g = Some (GInvoke (I170 method args callID)) ->
  threads w !! h = Some (GHandleRead done (H122 t')) ->
  conn w = Some a ->
  heap w !! a = Some c ->
  state (ac c) = Ready ->
  transport (ac c) = Some t ->
  mu w = None ->
  MarshalProtoMessage args = inl payload ->
  proto_Marshal (request_of callID method payload) = inl msgB ->
  methodCalls w !! callID = None ->
  UnmarshalMessage b = inl (mkMessage (Some (Message_Response r))) ->
  CallId r = callID ->
  Exec (Invoke_to_select g ++ dispatch_to_send h b ++ [EvSend h g; EvGo h Go; EvGo g Go]) w =
  Some (set_threads
          (<[g := GInvoke (IReturned (UnmarshalReply (Payload r)))]>
             (<[h := GHandleRead done H121]> (threads w)))
          (transport_Write t msgB (make_chan w))).
Proof.
  intros Hg Hh Hc Ha Hs Ht Hmu Hp Hm Hfresh Hb Hr.
  assert (g <> h) as Hgh by (intros ->; congruence).
  assert (g < length (threads w)) as Hlg by (by eapply lookup_lt_Some).
  rewrite Exec_app.
  erewrite Invoke_reaches_select by done. cbn [mbind option_bind].
  unfold dispatch_to_send. cbn [app].
  erewrite (delivery_before_timeout _ g h callID (chans w) done t' b r);
    [|simpl; by apply list_lookup_insert_eq
     |simpl; by rewrite list_lookup_insert_ne
     |simpl; by apply lookup_insert_eq|done..].
  destruct w as [tg dop cs cn mc m sb hp ch cl cr wr th]; wsimpl. simpl in *.
  rewrite delete_insert_id by done.
  rewrite (list_insert_insert_ne _ h g) by done.
  rewrite list_insert_insert_eq.
  by rewrite (list_insert_insert_ne _ g h) by done.
Qed.


(** X13.  A frame that unmarshals to a request, or to a message without
    exchange, is only logged: the dispatch loop is back in its read and
    nothing of the handle has changed. *)
Theorem non_response_frame_dropped w h done t b msg :
  threads w !! h = Some (GHandleRead done (H122 t)) ->
  conn_transport w = Some t ->
  UnmarshalMessage b = inl msg ->
  (forall r, Exchange msg <> Some (Message_Response r)) ->
  Exec [EvGo h (Frame b); EvGo h Go] w = Some w.
Proof.
  intros Hh Ht Hb Hmsg.
  assert (h < length (threads w)) as Hlen by (by eapply lookup_lt_Some).
  assert (Step (EvGo h (Frame b)) w
          = Some (set_threads (<[h := GHandleRead done H121]> (threads w)) w)) as E1.
  { eapply Step_go; [done|]. simpl. rewrite Hb.
    destruct (Exchange msg) as [[rq|r]|] eqn:Hx; try done. by destruct (Hmsg r). }
  rewrite (Exec_step _ _ _ _ E1).
  erewrite Exec_step; [reflexivity|].
  erewrite Step_go; [|simpl; by apply list_lookup_insert_eq|].
  2:{ simpl. change (conn_transport (set_threads _ w)) with (conn_transport w).
      by rewrite Ht. }
  simpl. rewrite list_insert_insert_eq, list_insert_id by done. by destruct w.
Qed.

(** X14.  A frame that does not unmarshal stops the dispatch loop at
    [log.Fatalln]: the [continue] after it is never reached, and the
    handle is otherwise untouched. *)
Theorem malformed_frame_fatal w h done t b err :
  threads w !! h = Some (GHandleRead done (H122 t)) ->
  UnmarshalMessage b = inr err ->
  Step (EvGo h (Frame b)) w
    = Some (set_threads (<[h := GHandleRead done HFatal]> (threads w)) w) /\
  forall i,
    Step (EvGo h i) (set_threads (<[h := GHandleRead done HFatal]> (threads w)) w) = None.
Proof.
  intros Hh Hb.
  assert (h < length (threads w)) as Hlen by (by eapply lookup_lt_Some).
  split.
  - eapply Step_go; [done|]. simpl. by rewrite Hb.
  - intros i. simpl. rewrite list_lookup_insert_eq by done. by destruct i.
Qed.

Lemma started_length ch ss : length (started (Args:=Args) ch ss) = count_Ready ss.
Proof.
  revert ch. induction ss as [|s ss IH]; intros ch; [done|].
  unfold count_Ready in *. simpl. rewrite filter_cons.
  case_decide; simpl; by rewrite IH.
Qed.

(** X8.  For every [Ready] it receives, [listenForRead] makes a channel
    and starts a dispatch loop on it, and does nothing for any other
    state: after receiving the states [ss], the new goroutines are the
    loops [started], one per [Ready] in [ss]; no channel is closed, and
    the call table, [cc.mu] and the connection are as before. *)
Theorem listenForRead_starts_loop_per_Ready ss w l ch c :
  threads w !! l = Some GListenForRead ->
  csCh w = Some ch ->
  heap w !! ch = Some c ->
  ss `prefix_of` drop (csRecv w) (stateCh (ac c)) ->
  exists w',
    Exec (replicate (length ss) (EvGo l Go)) w = Some w' /\
    threads w' = threads w ++ started (chans w) ss /\
    length (threads w') = length (threads w) + count_Ready ss /\
    chans w' = chans w + count_Ready ss /\
    csRecv w' = csRecv w + length ss /\
    closedCh w' = closedCh w /\
    methodCalls w' = methodCalls w /\
    mu w' = mu w /\
    heap w' = heap w.
Proof.
  revert w. induction ss as [|s ss IH]; intros w Hl Hc Hh [rest Hp].
  { exists w. simpl. rewrite app_nil_r. unfold count_Ready. simpl.
    repeat split; try done; lia. }
  assert (stateCh (ac c) !! csRecv w = Some s) as Hs.
  { rewrite <- (Nat.add_0_r (csRecv w)), <- lookup_drop, Hp. done. }
  assert (drop (S (csRecv w)) (stateCh (ac c)) = ss ++ rest) as Hp'.
  { change (S (csRecv w)) with (1 + csRecv w). rewrite Nat.add_comm, <- drop_drop, Hp. done. }
  destruct (decide (s = Ready)) as [->|Hn].
  - pose proof (listen_Ready w l ch c Hl Hc Hh Hs) as E.
    set (w1 := set_threads _ _) in E.
    destruct (IH w1) as (w' & Ex & Ht & _ & Hch & Hr & Hcl & Hm & Hmu & Hhp).
    { subst w1. simpl. by apply lookup_app_l_Some. }
    { done. } { done. } { simpl. by exists rest. }
    exists w'. split; [exact (eq_trans (Exec_step _ _ _ _ E) Ex)|].
    assert (threads w' = threads w ++ started (chans w) (Ready :: ss)) as Ht'.
    { rewrite Ht. simpl. by rewrite <- app_assoc. }
    split; [done|]. split; [by rewrite Ht', length_app, started_length|].
    unfold count_Ready in *. simpl in *. rewrite Hch, Hr. repeat split; try done; lia.
  - pose proof (listen_other w l ch c s Hl Hc Hh Hs Hn) as E.
    destruct (IH (recv_csCh w)) as (w' & Ex & Ht & _ & Hch & Hr & Hcl & Hm & Hmu & Hhp).
    { done. } { done. } { done. } { simpl. by exists rest. }
    exists w'. split; [exact (eq_trans (Exec_step _ _ _ _ E) Ex)|].
    assert (threads w' = threads w ++ started (chans w) (s :: ss)) as Ht'.
    { rewrite Ht. simpl. by rewrite decide_False. }
    split; [done|]. split; [by rewrite Ht', length_app, started_length|].
    unfold count_Ready in *. rewrite filter_cons, decide_False by done.
    simpl in *. rewrite Hch, Hr. repeat split; try done; lia.
Qed.

Lemma Close_nil_panics w :
  mu w = None -> conn w = None ->
  Exec (EvCall CallClose :: Close_to_end (length (threads w))) w =
  Some (set_threads (threads w ++ [GClose CPanicked]) w).
Proof.
  intros Hmu Hc.
  destruct w as [tg dop cs cn mc m sb hp ch cl cr wr th]; simpl in *; subst.
  unfold Close_to_end, Step, goroutine_step, spawn. simpl.
  rewrite !list_lookup_middle by done. simpl.
  rewrite insert_app_r_alt, Nat.sub_diag by done. simpl.
  rewrite !list_lookup_middle by done. simpl.
  rewrite insert_app_r_alt, Nat.sub_diag by done. simpl.
  rewrite !list_lookup_middle by done. simpl.
  rewrite decide_True by done. simpl.
  rewrite insert_app_r_alt, Nat.sub_diag by done. simpl.
  rewrite !list_lookup_middle by done. simpl.
  by rewrite insert_app_r_alt, Nat.sub_diag by done.
Qed.

(** X17.  [Close] is not idempotent: the first call sets [cc.conn] to
    nil and tears the connection down, the second reads the nil
    connection and panics in [conn.teardown()], after taking and
    releasing [cc.mu]. *)
Theorem Close_twice_panics w a c :
  mu w = None ->
  conn w = Some a ->
  heap w !! a = Some c ->
  Exec ((EvCall CallClose :: Close_to_end (length (threads w)))
        ++ (EvCall CallClose :: Close_to_end (S (length (threads w))))) w =
  Some (set_threads (threads w ++ [GClose CReturned; GClose CPanicked])
          (set_heap (<[a := teardown c]> (heap w)) (set_conn None w))).
Proof.
  intros Hmu Hc Ha.
  set (w1 := set_threads (threads w ++ [GClose CReturned])
               (set_heap (<[a := teardown c]> (heap w)) (set_conn None w))).
  assert (length (threads w1) = S (length (threads w))) as Hlen
    by (subst w1; simpl; rewrite length_app; simpl; lia).
  rewrite Exec_app. unfold Close_to_end at 1.
  rewrite (Close_runs w a c) by done. fold w1. cbn [mbind option_bind].
  rewrite <- Hlen.
  pose proof (Close_nil_panics w1 Hmu eq_refl) as E. unfold Close_to_end in E.
  rewrite E.
  subst w1. simpl. by rewrite <- app_assoc.
Qed.

Lemma fold_opts (opts : list (@DialOption ConnectOptions)) w :
  foldl (fun cc opt => set_dopts (opt (dopts cc)) cc) w opts =
  set_dopts (foldl (fun d opt => opt d) (dopts w) opts) w.
Proof.
  revert w. induction opts as [|opt opts IH]; intros w; simpl.
  - by destruct w.
  - by rewrite IH.
Qed.

(** X7.  [Dial] applies its options in order to the default options and
    keeps their connect options, but the strategy is always
    [backoff.DefaultExponential], for the handle and for its connection;
    the rest of the handle does not depend on the options. *)
Theorem Dial_options (b : B) (target : string)
    (opts : list (@DialOption ConnectOptions)) :
  Dial copts0 b target opts =
  (Some (mkWorld target
           (mkDialOptions
              (copts (foldl (fun d opt => opt d) (defaultDialOptions copts0) opts))
              (Some DefaultExponential))
           (Some 0) (Some 0) ∅ None b
           [mkConn (AddrConn target (Some DefaultExponential) None Connecting
                      [Connecting] false) 0 [] [] [] [Top]]
           0 [] 0 [] [@GListenForRead Args]),
   None).
Proof. unfold Dial. rewrite fold_opts. reflexivity. Qed.

(** X12.  The state check of [Invoke] does not guard its write: an
    [Invoke] that has passed the check and finds the connection or its
    transport nil when it writes, registers its call and then panics, and
    the call's entry stays in the table. *)
Theorem Invoke_panics_after_transport_loss w g callID msgB :
  threads w !! g = Some (GInvoke (I198 callID msgB)) ->
  mu w = None ->
  conn_transport w = None ->
  Exec [EvGo g Go; EvGo g Go; EvGo g Go] w =
  Some (set_threads (<[g := GInvoke IPanicked]> (threads w))
          (set_methodCalls (<[callID := chans w]> (methodCalls w)) (make_chan w))).
Proof.
  intros Hg Hmu Ht.
  assert (g < length (threads w)) as Hlg by (by eapply lookup_lt_Some).
  destruct w as [tg dop cs cn mc m sb hp ch cl cr wr th]; simpl in *; subst.
  unfold conn_transport in Ht. simpl in Ht.
  unfold Exec, Step, goroutine_step. simpl. rewrite Hg. simpl.
  rewrite list_lookup_insert_eq by done. simpl.
  rewrite decide_True by done. simpl.
  rewrite list_insert_insert_eq, list_lookup_insert_eq by done. simpl.
  unfold conn_transport. simpl. rewrite Ht. simpl.
  by rewrite list_insert_insert_eq.
Qed.

(** X18.  [Close] does not stop the dispatch loop: no [done] channel is
    closed, and a loop that handles one more frame after [Close]
    comes back to its select, reads [cc.conn], which is nil, and
    panics. *)
Theorem dispatch_panics_after_Close w h done t a c b msg :
  threads w !! h = Some (GHandleRead done (H122 t)) ->
  mu w = None ->
  conn w = Some a ->
  heap w !! a = Some c ->
  UnmarshalMessage b = inl msg ->
  (forall r, Exchange msg <> Some (Message_Response r)) ->
  Exec ((EvCall CallClose :: Close_to_end (length (threads w)))
        ++ [EvGo h (Frame b); EvGo h Go]) w =
  Some (set_threads (<[h := GHandleRead done HPanicked]> (threads w) ++ [GClose CReturned])
          (set_heap (<[a := teardown c]> (heap w)) (set_conn None w))).
Proof.
  intros Hh Hmu Hc Ha Hb Hmsg.
  assert (h < length (threads w)) as Hlen by (by eapply lookup_lt_Some).
  rewrite Exec_app. unfold Close_to_end.
  rewrite (Close_runs w a c) by done. cbn [mbind option_bind].
  destruct w as [tg dop cs cn mc m sb hp ch cl cr wr th]; simpl in *; subst.
  unfold Step, goroutine_step. simpl.
  rewrite lookup_app_l by done. rewrite Hh. simpl. rewrite Hb.
  assert (forall X : option (hpc * @World B Args ConnectOptions),
            match Exchange msg with
            | Some (Message_Request _) => X
            | Some (Message_Response r) => Some (H147 r, mkWorld tg dop cs None mc None sb
                (<[a:=teardown c]> hp) ch cl cr wr (th ++ [GClose CReturned]))
            | None => X
            end = X) as ->.
  { intros X. destruct (Exchange msg) as [[rq|r]|] eqn:Hx; try done. by destruct (Hmsg r). }
  simpl. rewrite insert_app_l by done.
  rewrite lookup_app_l by (by rewrite length_insert).
  rewrite list_lookup_insert_eq by done. simpl.
  rewrite insert_app_l by (by rewrite length_insert).
  by rewrite list_insert_insert_eq.
Qed.

(** What a step of goroutine [g] does to [cc.mu]: it takes the free
    mutex and enters a critical section, or releases the mutex it holds
    and leaves the section, or leaves the mutex alone and stays in or out
    of the section.  It starts at most one dispatch loop. *)
Lemma goroutine_step_mu g i t w t' w1 :
  goroutine_step g i t w = Some (t', w1) ->
  (threads w1 = threads w \/ exists d, threads w1 = threads w ++ [GHandleRead d H121]) /\
  ((mu w = None /\ mu w1 = Some g /\ ~ in_critical_section t /\ in_critical_section t') \/
   (mu w = Some g /\ mu w1 = None /\ in_critical_section t /\ ~ in_critical_section t') \/
   (mu w1 = mu w /\ (in_critical_section t' <-> in_critical_section t))).
Proof.
  intros Hg. destruct t as [p|dn p| |p]; simpl in Hg.
  - destruct p, i; simpl in Hg; crunch; simpl; (split; [eauto|]); tauto.
  - destruct p, i; simpl in Hg; crunch; simpl; (split; [eauto|]); tauto.
  - destruct i; crunch; simpl; (split; [eauto|]); tauto.
  - destruct i; try done. destruct p; simpl in Hg; crunch; simpl; (split; [eauto|]); tauto.
Qed.

Lemma Step_mu_held e w w' :
  mu_held_by_section w -> Step e w = Some w' -> mu_held_by_section w'.
Proof.
  intros [H1 H2] Hs. destruct e as [k|g i|h g|a e]; simpl in Hs.
  - simplify_eq. split; simpl.
    + intros g t Ht Hc. apply lookup_app_Some in Ht as [Ht|[_ Ht]]; [by eapply H1|].
      apply list_lookup_singleton_Some in Ht as [_ <-]. by destruct k.
    + intros g Hg. destruct (H2 g Hg) as (t & Ht & Hc). exists t. split; [|done].
      by apply lookup_app_l_Some.
  - destruct (threads w !! g) as [t|] eqn:Ht; simpl in Hs; [|done].
    destruct (goroutine_step g i t w) as [[t' w1]|] eqn:Hst; simpl in Hs; [|done].
    simplify_eq.
    assert (g < length (threads w)) as Hlg by (by eapply lookup_lt_Some).
    destruct (goroutine_step_mu _ _ _ _ _ _ Hst) as [Hth Hmu].
    assert (g < length (threads w1)) as Hlg1.
    { destruct Hth as [->|[d ->]]; [done|]. rewrite length_app. lia. }
    assert (forall j x, j <> g -> threads w1 !! j = Some x ->
              in_critical_section x -> threads w !! j = Some x) as Hold.
    { intros j x Hj Hx Hc. destruct Hth as [Hth|[d Hth]]; rewrite Hth in Hx; [done|].
      apply lookup_app_Some in Hx as [Hx|[_ Hx]]; [done|].
      by apply list_lookup_singleton_Some in Hx as [_ <-]. }
    assert (forall j x, threads w !! j = Some x -> threads w1 !! j = Some x) as Hnew.
    { intros j x Hx. destruct Hth as [->|[d ->]]; [done|]. by apply lookup_app_l_Some. }
    split; simpl.
    + intros j x Hx Hc.
      apply list_lookup_insert_Some in Hx as [(<- & <- & _)|[Hj Hx]].
      * destruct Hmu as [(_ & ? & _)|[(_ & _ & _ & ?)|[E Hiff]]]; [done|done|].
        rewrite E. apply (H1 g t Ht). by apply Hiff.
      * pose proof (H1 j x (Hold j x (not_eq_sym Hj) Hx Hc) Hc) as Hm.
        destruct Hmu as [(E & _)|[(E & _)|[E _]]]; [congruence|congruence|by rewrite E].
    + intros j Hj.
      destruct Hmu as [(_ & E & _ & Hc)|[(_ & E & _)|[E Hiff]]].
      * assert (j = g) as -> by congruence. exists t'. split; [|done].
        by apply list_lookup_insert_eq.
      * congruence.
      * rewrite E in Hj. destruct (H2 j Hj) as (x & Hx & Hc).
        destruct (decide (j = g)) as [->|Hne].
        -- exists t'. split; [by apply list_lookup_insert_eq|].
           apply Hiff. by simplify_eq.
        -- exists x. split; [|done]. rewrite list_lookup_insert_ne by done. by apply Hnew.
  - unfold rendezvous in Hs.
    destruct (threads w !! h) as [th|] eqn:Hth; simpl in Hs; [|done].
    destruct (threads w !! g) as [tg|] eqn:Htg; simpl in Hs; [|done].
    destruct th as [|dn [| | | |call r| | | |]| |]; try done.
    destruct tg as [[| | | |cid wt| | | | |]| | |]; try done.
    case_decide; [|done]. simplify_eq.
    assert (g <> h) as Hgh by (intros ->; congruence).
    assert (h < length (threads w)) as Hlh by (by eapply lookup_lt_Some).
    assert (g < length (threads w)) as Hlg by (by eapply lookup_lt_Some).
    split; simpl.
    + intros j x Hx Hc.
      apply list_lookup_insert_Some in Hx as [(<- & <- & _)|[Hj Hx]]; [done|].
      apply list_lookup_insert_Some in Hx as [(<- & <- & _)|[Hj' Hx]]; [|by eapply H1].
      by eapply (H1 h _ Hth).
    + intros j Hj. destruct (H2 j Hj) as (x & Hx & Hc).
      assert (j = h) as -> by (pose proof (H1 h _ Hth I); congruence).
      exists (GHandleRead dn (H154 r)). split; [|done].
      rewrite list_lookup_insert_ne by done. by apply list_lookup_insert_eq.
  - destruct (heap w !! a) as [c|]; simpl in Hs; [|done].
    destruct (step e (strategy w, c)) as [[b1 c1]|]; simpl in Hs; [|done]. by simplify_eq.
Qed.

(** X16.  [cc.mu] gives mutual exclusion: if the mutex is held exactly
    by the goroutine that stands between a [Lock] and its [Unlock], then
    so it is after every run, and no two goroutines ever stand in such a
    section together. *)
Theorem cc_mu_mutual_exclusion w es w' :
  mu_held_by_section w ->
  Exec es w = Some w' ->
  mu_held_by_section w' /\
  forall g1 g2 t1 t2,
    threads w' !! g1 = Some t1 -> threads w' !! g2 = Some t2 ->
    in_critical_section t1 -> in_critical_section t2 -> g1 = g2.
Proof.
  intros Hw Hx.
  assert (mu_held_by_section w') as Hw'.
  { revert w Hw Hx. induction es as [|e es IH]; intros w Hw Hx; simpl in Hx.
    - by simplify_eq.
    - destruct (Step e w) as [w1|] eqn:He; simpl in Hx; [|done].
      eapply IH; [|done]. by eapply Step_mu_held. }
  split; [done|]. intros g1 g2 t1 t2 Ht1 Ht2 Hc1 Hc2.
  destruct Hw' as [H1 _].
  pose proof (H1 _ _ Ht1 Hc1). pose proof (H1 _ _ Ht2 Hc2). congruence.
Qed.


(** What a step of a goroutine does to the call table and to the
    channels: it registers call [id] on the channel it just made, or
    leaves the table alone or removes an entry; the channel a goroutine
    uses afterwards is one it used before, or was read from the table. *)
Lemma goroutine_step_channels g i t w t' w1 :
  goroutine_step g i t w = Some (t', w1) ->
  chans w <= chans w1 /\
  (threads w1 = threads w \/ exists d, threads w1 = threads w ++ [GHandleRead d H121]) /\
  ((exists id msgB,
      t' = GInvoke (I202 id msgB (chans w)) /\ chans w1 = S (chans w) /\
      methodCalls w1 = <[id := chans w]> (methodCalls w)) \/
   ((forall id ch, methodCalls w1 !! id = Some ch -> methodCalls w !! id = Some ch) /\
    (forall ch id, uses_for t' ch id ->
       uses_for t ch id \/ methodCalls w !! id = Some ch))).
Proof.
  intros Hg. destruct t as [p|dn p| |p]; simpl in Hg.
  - destruct p, i; simpl in Hg; crunch; simpl;
      (split; [lia|]); (split; [eauto|]);
      try (right; split; [|tauto]; intros id0 ch0 Hl; done);
      try (by left; eauto).
    right. split; [|tauto]. intros id0 ch0 Hl.
    apply lookup_delete_Some in Hl as [_ ?]. done.
  - destruct p, i; simpl in Hg; crunch; simpl;
      (split; [lia|]); (split; [eauto|]); right;
      try (split; [intros id0 ch0 Hl; done|]; intros ch0 id0 Hu; simpl in Hu; tauto).
    + split; [done|]. intros ch0 id0 [<- <-]. by right.
    + split; [|tauto]. intros id0 ch0 Hl.
      apply lookup_delete_Some in Hl as [_ ?]. done.
  - destruct i; crunch; simpl; (split; [lia|]); (split; [eauto|]); right; (split; [done|]);
      tauto.
  - destruct i; try done. destruct p; simpl in Hg; crunch; simpl;
      (split; [lia|]); (split; [eauto|]); right; (split; [done|]); tauto.
Qed.

Lemma Step_channels_owned owner e w w' :
  channels_owned owner w -> Step e w = Some w' ->
  exists owner', channels_owned owner' w'.
Proof.
  intros (Hb & Hm & Ht) Hs. destruct e as [k|g i|h g|a e]; simpl in Hs.
  - simplify_eq. exists owner. split; [|split]; simpl; try done.
    intros g t ch id Hg Hu. apply lookup_app_Some in Hg as [Hg|[_ Hg]]; [by eapply Ht|].
    apply list_lookup_singleton_Some in Hg as [_ <-]. by destruct k.
  - destruct (threads w !! g) as [t|] eqn:Hg; simpl in Hs; [|done].
    destruct (goroutine_step g i t w) as [[t' w1]|] eqn:Hst; simpl in Hs; [|done].
    simplify_eq.
    destruct (goroutine_step_channels _ _ _ _ _ _ Hst) as (Hch & Hth & Heff).
    assert (forall j x ch id, j <> g -> threads w1 !! j = Some x -> uses_for x ch id ->
              owner ch = Some id) as Hold.
    { intros j x ch id Hj Hx Hu. destruct Hth as [Hth|[d Hth]]; rewrite Hth in Hx;
        [by eapply Ht|].
      apply lookup_app_Some in Hx as [Hx|[_ Hx]]; [by eapply Ht|].
      by apply list_lookup_singleton_Some in Hx as [_ <-]. }
    destruct Heff as [(id & msgB & -> & Hc1 & Hm1)|[Hsub Huse]].
    + exists (fun ch => if decide (ch = chans w) then Some id else owner ch).
      split; [|split]; simpl.
      * intros ch id0 Ho. case_decide; [lia|]. apply Hb in Ho. lia.
      * intros id0 ch Hl. rewrite Hm1 in Hl.
        apply lookup_insert_Some in Hl as [[<- <-]|[Hne Hl]].
        -- by rewrite decide_True.
        -- pose proof (Hm _ _ Hl) as Ho. pose proof (Hb _ _ Ho).
           rewrite decide_False by lia. done.
      * intros j x ch id0 Hx Hu.
        apply list_lookup_insert_Some in Hx as [(<- & <- & _)|[Hj Hx]].
        -- simpl in Hu. destruct Hu as [<- <-]. by rewrite decide_True.
        -- pose proof (Hold j x ch id0 (not_eq_sym Hj) Hx Hu) as Ho.
           pose proof (Hb _ _ Ho). rewrite decide_False by lia. done.
    + exists owner. split; [|split]; simpl.
      * intros ch id Ho. apply Hb in Ho. lia.
      * intros id ch Hl. apply Hm. by apply Hsub.
      * intros j x ch id Hx Hu.
        apply list_lookup_insert_Some in Hx as [(<- & <- & _)|[Hj Hx]].
        -- destruct (Huse _ _ Hu) as [Hu'|Hl]; [by eapply Ht|by apply Hm].
        -- by eapply (Hold j x ch id (not_eq_sym Hj)).
  - unfold rendezvous in Hs.
    destruct (threads w !! h) as [th|] eqn:Hth; simpl in Hs; [|done].
    destruct (threads w !! g) as [tg|] eqn:Htg; simpl in Hs; [|done].
    destruct th as [|dn [| | | |call r| | | |]| |]; try done.
    destruct tg as [[| | | |cid wt| | | | |]| | |]; try done.
    case_decide; [|done]. simplify_eq.
    exists owner. split; [|split]; simpl; try done.
    intros j x ch id Hx Hu.
    apply list_lookup_insert_Some in Hx as [(<- & <- & _)|[Hj Hx]]; [done|].
    apply list_lookup_insert_Some in Hx as [(<- & <- & _)|[Hj' Hx]]; [done|].
    by eapply Ht.
  - destruct (heap w !! a) as [c|]; simpl in Hs; [|done].
    destruct (step e (strategy w, c)) as [[b1 c1]|]; simpl in Hs; [|done].
    simplify_eq. by exists owner.
Qed.

Lemma Exec_channels_owned owner es w w' :
  channels_owned owner w -> Exec es w = Some w' ->
  exists owner', channels_owned owner' w'.
Proof.
  revert owner w. induction es as [|e es IH]; intros owner w Hw Hx; simpl in Hx.
  - simplify_eq. by exists owner.
  - destruct (Step e w) as [w1|] eqn:He; simpl in Hx; [|done].
    destruct (Step_channels_owned _ _ _ _ Hw He) as [owner1 Hw1].
    by eapply IH.
Qed.

(** X15.  A payload only ever reaches the call it answers: in every
    state reached from a handle with no call under way, whenever the
    dispatch loop hands over a payload, the receiving [Invoke] waits for
    the call whose identifier the response carries. *)
Theorem response_reaches_its_call w0 es w h g w' :
  no_call_under_way w0 ->
  Exec es w0 = Some w ->
  Step (EvSend h g) w = Some w' ->
  exists done ch r,
    threads w !! h = Some (GHandleRead done (H152 ch r)) /\
    threads w !! g = Some (GInvoke (I205 (CallId r) ch)) /\
    threads w' !! g = Some (GInvoke (I208 (Payload r))) /\
    threads w' !! h = Some (GHandleRead done (H154 r)).
Proof.
  intros [Hm0 Ht0] Hx Hs.
  assert (channels_owned (fun _ => None) w0) as H0.
  { split; [done|]. split.
    - intros id ch. rewrite Hm0. by rewrite lookup_empty.
    - intros j t ch id Hj Hu. by destruct (Ht0 j t ch id Hj). }
  destruct (Exec_channels_owned _ _ _ _ H0 Hx) as (owner & _ & _ & Ht).
  simpl in Hs. unfold rendezvous in Hs.
  destruct (threads w !! h) as [th|] eqn:Hth; simpl in Hs; [|done].
  destruct (threads w !! g) as [tg|] eqn:Htg; simpl in Hs; [|done].
  destruct th as [|dn [| | | |call r| | | |]| |]; try done.
  destruct tg as [[| | | |cid wt| | | | |]| | |]; try done.
  case_decide; [|done]. simplify_eq.
  assert (g <> h) as Hgh by (intros ->; congruence).
  assert (h < length (threads w)) as Hlh by (by eapply lookup_lt_Some).
  assert (g < length (threads w)) as Hlg by (by eapply lookup_lt_Some).
  pose proof (Ht h _ wt (CallId r) Hth (conj eq_refl eq_refl)) as O1.
  pose proof (Ht g _ wt cid Htg (conj eq_refl eq_refl)) as O2.
  assert (cid = CallId r) as -> by congruence.
  exists dn, wt, r. split; [done|]. split; [done|]. simpl. split.
  - apply list_lookup_insert_eq. by rewrite length_insert.
  - rewrite list_lookup_insert_ne by done. by apply list_lookup_insert_eq.
Qed.

End ClientConnMore.

(** * Server options *)

Section ServerOptionsFacts.
Context {PrivateKey Identities TransportCredentials : Type}.
Context (server_credentials : PrivateKey -> Identities -> TransportCredentials).
Context (defaultWriteBufSize defaultReadBufSize : Z).
Implicit Types (o : @serverOptions PrivateKey Identities TransportCredentials).
Implicit Types (calls : list (@option_call PrivateKey Identities)).

Lemma omap_snoc {X Y} (f : X -> option Y) (l : list X) (x : X) :
  omap f (l ++ [x]) = omap f l ++ (if f x is Some y then [y] else []).
Proof. rewrite omap_app. simpl. by destruct (f x). Qed.

(** X19.  Of the server options applied one after the other, the last
    [WriteBufferSize], the last [ReadBufferSize] and the last [Creds]
    decide the field they set, which is otherwise left as it was; no
    option sets [privKey] or [clientIdentities], which on the default
    options stay nil. *)
Theorem server_options_last_wins calls o :
  let o' := apply_all server_credentials calls o in
  let d' := apply_all server_credentials calls
              (defaultServerOptions defaultWriteBufSize defaultReadBufSize) in
  writeBufferSize o' = default (writeBufferSize o) (last (omap write_size calls)) /\
  readBufferSize o' = default (readBufferSize o) (last (omap read_size calls)) /\
  creds o' = from_option Some (creds o) (last (omap (credentials server_credentials) calls)) /\
  privKey o' = privKey o /\
  clientIdentities o' = clientIdentities o /\
  writeBufferSize d' = default defaultWriteBufSize (last (omap write_size calls)) /\
  readBufferSize d' = default defaultReadBufSize (last (omap read_size calls)) /\
  creds d' = last (omap (credentials server_credentials) calls) /\
  privKey d' = None /\
  clientIdentities d' = None.
Proof.
  assert (forall o0,
    let o' := apply_all server_credentials calls o0 in
    writeBufferSize o' = default (writeBufferSize o0) (last (omap write_size calls)) /\
    readBufferSize o' = default (readBufferSize o0) (last (omap read_size calls)) /\
    creds o' = from_option Some (creds o0)
                 (last (omap (credentials server_credentials) calls)) /\
    privKey o' = privKey o0 /\
    clientIdentities o' = clientIdentities o0) as H.
  { intros o0. unfold apply_all.
    induction calls as [|call calls IH] using rev_ind; [done|].
    rewrite foldl_snoc, !omap_snoc. simpl in IH.
    destruct IH as (Hw & Hr & Hc & Hk & Hi).
    destruct call; simpl; rewrite ?last_snoc, ?app_nil_r; simpl; done. }
  intros o' d'.
  destruct (H o) as (Hw & Hr & Hc & Hk & Hi).
  destruct (H (defaultServerOptions defaultWriteBufSize defaultReadBufSize))
    as (Hw' & Hr' & Hc' & Hk' & Hi').
  simpl in Hc'. do 7 (split; [done|]).
  split; [|done]. fold d' in Hc'. rewrite Hc'.
  by destruct (last (omap (credentials server_credentials) calls)).
Qed.

End ServerOptionsFacts.

(** * The further properties on the concrete handle *)

Lemma listening_world_reachable :
  Exec listening_schedule dialed_world = Some listening_world.
Proof. vm_compute. reflexivity. Qed.

Lemma calling_world_reachable :
  Exec (listening_schedule ++ [EvCall (CallInvoke "Echo"%string hi "a"%string)])
    dialed_world = Some calling_world.
Proof. vm_compute. reflexivity. Qed.

Lemma lost_world_reachable : Exec lost_schedule calling_world = Some lost_world.
Proof. vm_compute. reflexivity. Qed.

Lemma sending_world_reachable :
  Exec (pending_schedule ++ dispatch_to_send 1 echo_response) dialed_world
  = Some sending_world.
Proof. vm_compute. reflexivity. Qed.

Lemma no_repeat_fresh_conn : no_repeat (published fresh_conn).
Proof.
  intros [|[|i]] x y Hx Hy; simpl in Hx, Hy; simplify_eq. discriminate.
Qed.

Lemma transport_follows_state_ready_conn :
  transport_agrees fresh_conn /\
  run (successful_dial 0 ++ [EvLoop 0 Next; EvOnClose 0; EvTeardown]) (0, fresh_conn) =
    Some (0, teardown (onClose 0 ready_conn)) /\
  transport_agrees (teardown (onClose 0 ready_conn)).
Proof.
  assert (transport_agrees fresh_conn) as H0 by (split; discriminate).
  split; [exact H0|]. split; [reflexivity|].
  exact (transport_follows_state fresh_conn
           (successful_dial 0 ++ [EvLoop 0 Next; EvOnClose 0; EvTeardown]) 0 0 _
           H0 eq_refl).
Defined.

Lemma state_changes_published_loss_and_failure :
  publishes_changes fresh_conn /\
  run loss_and_failure (0, fresh_conn) = Some (1, failed_again_conn) /\
  states_along loss_and_failure (0, fresh_conn) =
    [Connecting; Connecting; Ready; Ready; Idle; Idle; Connecting; Connecting;
     TransientFailure] /\
  stateCh (ac failed_again_conn) =
    stateCh (ac fresh_conn) ++ [Ready; Idle; Connecting; TransientFailure] /\
  publishes_changes failed_again_conn.
Proof.
  assert (publishes_changes fresh_conn) as H0
    by (split; [reflexivity|exact no_repeat_fresh_conn]).
  assert (run loss_and_failure (0, fresh_conn) = Some (1, failed_again_conn)) as R
    by (vm_compute; reflexivity).
  split; [exact H0|]. split; [exact R|]. split; [reflexivity|]. split.
  - exact (proj1 (state_changes_published 0 fresh_conn loss_and_failure 1
                    failed_again_conn R)).
  - exact (proj2 (state_changes_published 0 fresh_conn loss_and_failure 1
                    failed_again_conn R) H0).
Defined.

Lemma ready_needs_successful_dial_fresh_conn :
  (state (ac fresh_conn) <> Ready) /\
  no_dial_adopted fresh_conn /\
  (forall g, EvLoop g (DialResult true) ∉ failed_attempt 0 ++ [EvConnect]) /\
  exists b' c',
    run (failed_attempt 0 ++ [EvConnect]) (0, fresh_conn) = Some (b', c') /\
    (state (ac c') <> Ready) /\ no_dial_adopted c'.
Proof.
  assert (state (ac fresh_conn) <> Ready) as Hs by discriminate.
  assert (no_dial_adopted fresh_conn) as Hn.
  { intros [|g] k Hg; simpl in Hg; discriminate. }
  assert (forall g, EvLoop g (DialResult true) ∉ failed_attempt 0 ++ [EvConnect]) as He.
  { intros g Hin. vm_compute in Hin.
    repeat (apply elem_of_cons in Hin as [Hin|Hin]; [discriminate|]).
    by apply elem_of_nil in Hin. }
  split; [exact Hs|]. split; [exact Hn|]. split; [exact He|].
  eexists _, _. split; [reflexivity|].
  exact (ready_needs_successful_dial fresh_conn (failed_attempt 0 ++ [EvConnect]) 0 _ _
           Hs Hn He eq_refl).
Defined.

Lemma alive_until_teardown_ready_conn :
  alive ready_conn /\
  (EvTeardown ∉ [EvOnClose 0; EvConnect; EvLoop 0 Next; EvLoop 0 Next]) /\
  exists b' c',
    run ([EvOnClose 0; EvConnect; EvLoop 0 Next; EvLoop 0 Next] : list event)
      (0, ready_conn) = Some (b', c') /\
    alive c'.
Proof.
  assert (alive ready_conn) as Ha.
  { split; [discriminate|]. split; [reflexivity|]. simpl. intros Hin.
    apply elem_of_cons in Hin as [Hin|Hin]; [discriminate|]. by apply elem_of_nil in Hin. }
  assert (EvTeardown ∉ [EvOnClose 0; EvConnect; EvLoop 0 Next; EvLoop 0 Next]) as He.
  { intros Hin.
    repeat (apply elem_of_cons in Hin as [Hin|Hin]; [discriminate|]).
    by apply elem_of_nil in Hin. }
  split; [exact Ha|]. split; [exact He|].
  eexists _, _. split; [reflexivity|].
  exact (alive_until_teardown ready_conn _ 0 _ _ Ha He eq_refl).
Defined.

Lemma retry_loop_winds_down_adopting :
  state (ac (teardown fresh_conn)) = Shutdown /\
  resetTransport_step Next (DialOk 0) 1 (teardown fresh_conn)
    = Some (Returned, 1, transport_Close 0 (teardown fresh_conn)) /\
  ac (transport_Close 0 (teardown fresh_conn)) = ac (teardown fresh_conn) /\
  closed (transport_Close 0 (teardown fresh_conn)) = closed (teardown fresh_conn) ++ [0].
Proof.
  split; [reflexivity|]. split; [reflexivity|].
  destruct (retry_loop_winds_down (teardown fresh_conn) Next (DialOk 0) 1 Returned 1
              (transport_Close 0 (teardown fresh_conn)) eq_refl eq_refl)
    as (Hac & _ & _ & Hk & _).
  split; [exact Hac|]. exact (proj2 (Hk 0 eq_refl)).
Defined.

Lemma Invoke_marshal_error_empty_message :
  threads (spawn (GInvoke (I170 "Echo"%string [] "a"%string)) listening_world) !! 2
    = Some (GInvoke (I170 "Echo"%string [] "a"%string)) /\
  state (ac ready_conn) = Ready /\
  @MarshalProtoMessage bytes strict_codec [] = inr "empty message"%string /\
  @Step nat _ bytes strict_codec unit (EvGo 2 Go)
    (spawn (GInvoke (I170 "Echo"%string [] "a"%string)) listening_world) =
  Some (set_threads [GListenForRead; GHandleRead 0 (H122 0);
                     GInvoke (IReturned (Some "empty message"%string))] listening_world).
Proof.
  do 3 (split; [reflexivity|]).
  exact (@Invoke_marshal_error nat _ bytes strict_codec unit
           (spawn (GInvoke (I170 "Echo"%string [] "a"%string)) listening_world)
           2 "Echo"%string [] "a"%string 0 ready_conn "empty message"%string
           eq_refl eq_refl eq_refl eq_refl (or_introl eq_refl)).
Defined.

Lemma Invoke_times_out_calling_world :
  threads calling_world !! 2 = Some (GInvoke (I170 "Echo"%string hi "a"%string)) /\
  state (ac ready_conn) = Ready /\
  transport (ac ready_conn) = Some 0 /\
  mu calling_world = None /\
  proto_Marshal (request_of "a"%string "Echo"%string hi) = inl echo_request /\
  methodCalls calling_world !! "a"%string = None /\
  Exec (Invoke_to_select 2 ++ [EvGo 2 Timer; EvGo 2 Go; EvGo 2 Go]) calling_world =
  Some (set_threads [GListenForRead; GHandleRead 0 (H122 0);
                     GInvoke (IReturned (Some errCallTimeout))]
          (transport_Write 0 echo_request (make_chan calling_world))).
Proof.
  do 6 (split; [reflexivity|]).
  exact (Invoke_times_out calling_world 2 "Echo"%string hi "a"%string 0 ready_conn 0
           hi echo_request eq_refl eq_refl eq_refl eq_refl eq_refl eq_refl eq_refl
           eq_refl eq_refl).
Defined.

Lemma Invoke_receives_reply_calling_world :
  threads calling_world !! 2 = Some (GInvoke (I170 "Echo"%string hi "a"%string)) /\
  threads calling_world !! 1 = Some (GHandleRead 0 (H122 0)) /\
  state (ac ready_conn) = Ready /\
  mu calling_world = None /\
  methodCalls calling_world !! "a"%string = None /\
  UnmarshalMessage echo_response = inl (mkMessage (Some (Message_Response echo_reply))) /\
  Exec (Invoke_to_select 2 ++ dispatch_to_send 1 echo_response
        ++ [EvSend 1 2; EvGo 1 Go; EvGo 2 Go]) calling_world =
  Some (set_threads [GListenForRead; GHandleRead 0 H121; GInvoke (IReturned None)]
          (transport_Write 0 echo_request (make_chan calling_world))).
Proof.
  do 6 (split; [reflexivity|]).
  exact (Invoke_receives_reply calling_world 2 1 0 0 "Echo"%string hi "a"%string 0
           ready_conn 0 hi echo_request echo_response echo_reply
           eq_refl eq_refl eq_refl eq_refl eq_refl eq_refl eq_refl eq_refl eq_refl
           eq_refl eq_refl eq_refl).
Defined.

Lemma non_response_frame_dropped_request :
  threads pending_world !! 1 = Some (GHandleRead 0 (H122 0)) /\
  conn_transport pending_world = Some 0 /\
  UnmarshalMessage echo_request =
    inl (mkMessage (Some (Message_Request (mkRequest "a"%string EmptyString hi)))) /\
  Exec [EvGo 1 (Frame echo_request); EvGo 1 Go] pending_world = Some pending_world.
Proof.
  do 3 (split; [reflexivity|]).
  apply (non_response_frame_dropped pending_world 1 0 0 echo_request
           (mkMessage (Some (Message_Request (mkRequest "a"%string EmptyString hi)))));
    [reflexivity|reflexivity|reflexivity|discriminate].
Defined.

Lemma malformed_frame_fatal_short_frame :
  threads pending_world !! 1 = Some (GHandleRead 0 (H122 0)) /\
  UnmarshalMessage ([Byte.x01] : bytes) = inr "short frame"%string /\
  Step (EvGo 1 (Frame [Byte.x01])) pending_world =
    Some (set_threads [GListenForRead; GHandleRead 0 HFatal; GInvoke (I205 "a"%string 1)]
            pending_world) /\
  forall i,
    Step (EvGo 1 i)
      (set_threads [GListenForRead; GHandleRead 0 HFatal; GInvoke (I205 "a"%string 1)]
         pending_world) = None.
Proof.
  do 2 (split; [reflexivity|]).
  exact (malformed_frame_fatal pending_world 1 0 0 [Byte.x01] "short frame"%string
           eq_refl eq_refl).
Defined.

Lemma listenForRead_starts_loop_per_Ready_reconnected_world :
  threads reconnected_world !! 0 = Some GListenForRead /\
  csCh reconnected_world = Some 0 /\
  ([Ready; Idle; Connecting; Ready] `prefix_of`
     drop (csRecv reconnected_world) [Connecting; Ready; Idle; Connecting; Ready]) /\
  exists w',
    Exec (replicate 4 (EvGo 0 Go)) reconnected_world = Some w' /\
    threads w' = [GListenForRead; GHandleRead 0 H121; GHandleRead 1 H121] /\
    chans w' = 2 /\
    csRecv w' = 5.
Proof.
  assert ([Ready; Idle; Connecting; Ready] `prefix_of`
            drop (csRecv reconnected_world) [Connecting; Ready; Idle; Connecting; Ready])
    as Hp by (exists []; reflexivity).
  do 2 (split; [reflexivity|]). split; [exact Hp|].
  destruct (listenForRead_starts_loop_per_Ready [Ready; Idle; Connecting; Ready]
              reconnected_world 0 0 _ eq_refl eq_refl eq_refl Hp)
    as (w' & Ex & Ht & _ & Hc & Hr & _).
  exists w'. split; [exact Ex|]. split; [exact Ht|]. split; [exact Hc|exact Hr].
Defined.

Lemma Close_twice_panics_dialed_world :
  mu dialed_world = None /\
  conn dialed_world = Some 0 /\
  heap dialed_world !! 0 = Some fresh_conn /\
  Exec ((EvCall CallClose :: Close_to_end 1) ++ (EvCall CallClose :: Close_to_end 2))
    dialed_world =
  Some (set_threads [GListenForRead; GClose CReturned; GClose CPanicked]
          (set_heap [teardown fresh_conn] (set_conn None dialed_world))).
Proof.
  do 3 (split; [reflexivity|]).
  exact (Close_twice_panics dialed_world 0 fresh_conn eq_refl eq_refl eq_refl).
Defined.

Lemma Invoke_panics_after_transport_loss_lost_world :
  threads lost_world !! 2 = Some (GInvoke (I198 "a"%string echo_request)) /\
  mu lost_world = None /\
  conn_transport lost_world = None /\
  Exec [EvGo 2 Go; EvGo 2 Go; EvGo 2 Go] lost_world =
  Some (set_threads [GListenForRead; GHandleRead 0 (H122 0); GInvoke IPanicked]
          (set_methodCalls {["a"%string := 1]} (make_chan lost_world))).
Proof.
  do 3 (split; [reflexivity|]).
  exact (Invoke_panics_after_transport_loss lost_world 2 "a"%string echo_request
           eq_refl eq_refl eq_refl).
Defined.

Lemma dispatch_panics_after_Close_listening_world :
  threads listening_world !! 1 = Some (GHandleRead 0 (H122 0)) /\
  mu listening_world = None /\
  conn listening_world = Some 0 /\
  heap listening_world !! 0 = Some ready_conn /\
  Exec ((EvCall CallClose :: Close_to_end 2)
        ++ [EvGo 1 (Frame echo_request); EvGo 1 Go]) listening_world =
  Some (set_threads [GListenForRead; GHandleRead 0 HPanicked; GClose CReturned]
          (set_heap [teardown ready_conn] (set_conn None listening_world))).
Proof.
  do 4 (split; [reflexivity|]).
  apply (dispatch_panics_after_Close listening_world 1 0 0 0 ready_conn echo_request
           (mkMessage (Some (Message_Request (mkRequest "a"%string EmptyString hi)))));
    [reflexivity|reflexivity|reflexivity|reflexivity|reflexivity|discriminate].
Defined.

Lemma cc_mu_mutual_exclusion_sending_world :
  mu_held_by_section dialed_world /\
  Exec (pending_schedule ++ dispatch_to_send 1 echo_response) dialed_world
    = Some sending_world /\
  mu_held_by_section sending_world /\
  forall g1 g2 t1 t2,
    threads sending_world !! g1 = Some t1 -> threads sending_world !! g2 = Some t2 ->
    in_critical_section t1 -> in_critical_section t2 -> g1 = g2.
Proof.
  assert (mu_held_by_section dialed_world) as H0.
  { split.
    - intros [|g] t Ht Hc; simpl in Ht; simplify_eq. destruct Hc.
    - intros g Hg. discriminate. }
  split; [exact H0|]. split; [exact sending_world_reachable|].
  exact (cc_mu_mutual_exclusion dialed_world _ sending_world H0 sending_world_reachable).
Defined.

Lemma response_reaches_its_call_sending_world :
  no_call_under_way dialed_world /\
  Exec (pending_schedule ++ dispatch_to_send 1 echo_response) dialed_world
    = Some sending_world /\
  Step (EvSend 1 2) sending_world =
    Some (set_threads [GListenForRead; GHandleRead 0 (H154 echo_reply);
                       GInvoke (I208 hi)] sending_world) /\
  exists done ch r,
    threads sending_world !! 1 = Some (GHandleRead done (H152 ch r)) /\
    threads sending_world !! 2 = Some (GInvoke (I205 (CallId r) ch)) /\
    threads (set_threads [GListenForRead; GHandleRead 0 (H154 echo_reply);
                          GInvoke (I208 hi)] sending_world) !! 2
      = Some (GInvoke (I208 (Payload r))) /\
    threads (set_threads [GListenForRead; GHandleRead 0 (H154 echo_reply);
                          GInvoke (I208 hi)] sending_world) !! 1
      = Some (GHandleRead done (H154 r)).
Proof.
  assert (no_call_under_way dialed_world) as H0.
  { split; [reflexivity|].
    intros [|g] t ch id Ht Hu; simpl in Ht; simplify_eq. destruct Hu. }
  split; [exact H0|]. split; [exact sending_world_reachable|]. split; [reflexivity|].
  exact (response_reaches_its_call dialed_world _ sending_world 1 2 _ H0
           sending_world_reachable eq_refl).
Defined.
